(** * ICP-azle-social-media: posts and comments canister (src/index.ts)

    A shallow embedding of the canister's two stable stores and its nine
    endpoints, followed by the properties of the storage and integrity
    layer.

    Modelling choices, all read off the source:

    - [postStorage] and [commentStorage] are [StableBTreeMap]s.  A
      [StableBTreeMap] keeps encoded records in stable memory: [get]
      decodes a detached copy, and a change made to that copy reaches the
      store only through a later [insert].  Handlers are therefore written
      in a state monad over the two maps, local copies being ordinary
      values.  The constructors bound the encoded key by 44 bytes and the
      encoded value by 1024 bytes; an [insert] over a bound throws and the
      call traps.  The handlers are given twice: over the plain maps, which
      is every call that does not trap, and in [Bounded] with the size
      checks and the trap; [bounded_exec_refines] relates the two.
    - [ic.caller()], [ic.time()] and [uuidv4()] are supplied by the
      environment of a call ([Env]); every handler reads each of them at
      most once.
    - A [Principal] is identified with its textual form, which is what the
      source compares ([toString() !== toString()]).
    - [likes] is a JavaScript [number] (IEEE-754 binary64).  It starts at 0
      and changes only through [++], so it ranges over the integers
      0 .. 2^53, on which [++] is the exact successor below 2^53 and the
      identity at 2^53 (2^53 + 1 is not a binary64 value and the tie rounds
      to even).  See [js_incr]. *)

From stdpp Require Import gmap strings list fin_maps.
From Stdlib Require Import ZArith NArith Floats.

Open Scope string_scope.

(** ** Data model *)

Definition Principal : Type := string.
Definition nat64 : Type := N.

Record Post : Type := mkPost {
  post_id : string;
  post_title : string;
  post_body : string;
  post_image : string;
  post_owner : Principal;
  post_likes : Z;
  post_createdAt : nat64;
  post_updatedAt : option nat64;
  post_comments : list string
}.

Record PostPayload : Type := mkPostPayload {
  pp_title : string;
  pp_body : string;
  pp_image : string
}.

Record Comment : Type := mkComment {
  comment_id : string;
  comment_content : string;
  comment_sender : Principal;
  comment_postId : string
}.

Record CommentPayload : Type := mkCommentPayload {
  cp_content : string;
  cp_postId : string
}.

Inductive Result (A E : Type) : Type :=
| Ok (a : A)
| Err (e : E).
Arguments Ok {A E} a.
Arguments Err {A E} e.

#[global] Instance Post_eq_dec : EqDecision Post.
Proof. solve_decision. Defined.
#[global] Instance Comment_eq_dec : EqDecision Comment.
Proof. solve_decision. Defined.

(** ** The two stores and the handler monad *)

Record State : Type := mkState {
  postStorage : gmap string Post;
  commentStorage : gmap string Comment
}.

(** Both stores are created empty when the canister is installed. *)
Definition init : State := mkState ∅ ∅.

Record Env : Type := mkEnv {
  caller : Principal;
  time : nat64;
  uuidv4 : string
}.

Definition M (A : Type) : Type := State → A * State.

#[global] Instance M_ret : MRet M := λ A a s, (a, s).
#[global] Instance M_bind : MBind M := λ A B f m s, let '(a, s') := m s in f a s'.
#[global] Instance M_fmap : FMap M := λ A B f m s, let '(a, s') := m s in (f a, s').

(** [StableBTreeMap] methods, one set per store.  [insert] is the upsert
    without the size check of the constructor; the checked inserts are
    [Bounded.postStorage_insert] and [Bounded.commentStorage_insert]. *)
Module postStorage.
Definition get (id : string) : M (option Post) :=
  λ s, (postStorage s !! id, s).
Definition insert (id : string) (post : Post) : M unit :=
  λ s, (tt, mkState (<[id := post]> (postStorage s)) (commentStorage s)).
Definition remove (id : string) : M unit :=
  λ s, (tt, mkState (delete id (postStorage s)) (commentStorage s)).
(** The order of [values] is the store's own; no handler depends on it. *)
Definition values : M (list Post) :=
  λ s, ((map_to_list (postStorage s)).*2, s).
End postStorage.

Module commentStorage.
Definition get (id : string) : M (option Comment) :=
  λ s, (commentStorage s !! id, s).
Definition insert (id : string) (comment : Comment) : M unit :=
  λ s, (tt, mkState (postStorage s) (<[id := comment]> (commentStorage s))).
Definition remove (id : string) : M unit :=
  λ s, (tt, mkState (postStorage s) (delete id (commentStorage s))).
Definition values : M (list Comment) :=
  λ s, ((map_to_list (commentStorage s)).*2, s).
End commentStorage.

(** [for (const x of l) body(x)] *)
Fixpoint forEach {A : Type} (l : list A) (body : A → M unit) : M unit :=
  match l with
  | [] => mret tt
  | x :: l' => body x ;; forEach l' body
  end.

(** ** JavaScript helpers *)

(** [x++] on a [number] holding an integer of 0 .. 2^53. *)
Definition js_incr (x : Z) : Z :=
  if (x <? 2 ^ 53)%Z then (x + 1)%Z else x.

(** [Array.prototype.indexOf]: position of the first occurrence, or -1. *)
Fixpoint indexOf (l : list string) (x : string) : Z :=
  match l with
  | [] => (-1)%Z
  | y :: l' =>
      if decide (y = x) then 0%Z
      else let i := indexOf l' x in
           if (i <? 0)%Z then (-1)%Z else (i + 1)%Z
  end.

(** [l.splice(index, 1)] for an index within the array. *)
Definition splice1 (l : list string) (index : Z) : list string :=
  take (Z.to_nat index) l ++ drop (S (Z.to_nat index)) l.

(** [{...post, likes: n}] and [{...post, comments: l}]: in-place changes of
    a local copy. *)
Definition set_likes (n : Z) (post : Post) : Post :=
  mkPost (post_id post) (post_title post) (post_body post) (post_image post)
         (post_owner post) n (post_createdAt post) (post_updatedAt post)
         (post_comments post).

Definition set_comments (l : list string) (post : Post) : Post :=
  mkPost (post_id post) (post_title post) (post_body post) (post_image post)
         (post_owner post) (post_likes post) (post_createdAt post)
         (post_updatedAt post) l.

(** ** Endpoints *)

Definition getPosts : M (Result (list Post) string) :=
  posts ← postStorage.values;
  mret (Ok posts).

Definition getPost (id : string) : M (Result Post string) :=
  o ← postStorage.get id;
  match o with
  | Some post => mret (Ok post)
  | None => mret (Err ("A post with id=" +:+ id +:+ " was not found."))
  end.

Definition createPost (env : Env) (payload : PostPayload)
  : M (Result Post string) :=
  let post :=
    {| post_id := uuidv4 env;
       post_createdAt := time env;
       post_updatedAt := None;
       post_owner := caller env;
       post_likes := 0;
       post_comments := [];
       post_title := pp_title payload;
       post_body := pp_body payload;
       post_image := pp_image payload |} in
  postStorage.insert (post_id post) post ;;
  mret (Ok post).

Definition updatePost (env : Env) (id : string) (payload : PostPayload)
  : M (Result Post string) :=
  o ← postStorage.get id;
  match o with
  | Some post =>
      if decide (post_owner post ≠ caller env) then
        mret (Err "You do not have permission to update this post.")
      else
        let updatedPost :=
          {| post_id := post_id post;
             post_owner := post_owner post;
             post_likes := post_likes post;
             post_createdAt := post_createdAt post;
             post_comments := post_comments post;
             post_title := pp_title payload;
             post_body := pp_body payload;
             post_image := pp_image payload;
             post_updatedAt := Some (time env) |} in
        postStorage.insert (post_id post) updatedPost ;;
        mret (Ok updatedPost)
  | None =>
      mret (Err ("Couldn't update a post with id=" +:+ id +:+ ". Post not found."))
  end.

Definition likePost (postId : string) : M (Result Post string) :=
  o ← postStorage.get postId;
  match o with
  | Some post =>
      let post := set_likes (js_incr (post_likes post)) post in
      postStorage.insert (post_id post) post ;;
      mret (Ok post)
  | None => mret (Err ("A post with id=" +:+ postId +:+ " was not found."))
  end.

(** The loop of [getCommentsOnPost]; [comments] is the local array. *)
Fixpoint collectComments (ids : list string) (comments : list Comment)
  : M (list Comment) :=
  match ids with
  | [] => mret comments
  | commentId :: ids' =>
      o ← commentStorage.get commentId;
      match o with
      | Some comment => collectComments ids' (comments ++ [comment])
      | None => collectComments ids' comments
      end
  end.

Definition getCommentsOnPost (postId : string)
  : M (Result (list Comment) string) :=
  o ← postStorage.get postId;
  match o with
  | Some post =>
      comments ← collectComments (post_comments post) [];
      mret (Ok comments)
  | None => mret (Err ("A post with id=" +:+ postId +:+ " was not found."))
  end.

Definition commentOnPost (env : Env) (payload : CommentPayload)
  : M (Result Comment string) :=
  o ← postStorage.get (cp_postId payload);
  match o with
  | Some post =>
      let comment :=
        {| comment_id := uuidv4 env;
           comment_sender := caller env;
           comment_content := cp_content payload;
           comment_postId := cp_postId payload |} in
      let post := set_comments (post_comments post ++ [comment_id comment]) post in
      commentStorage.insert (comment_id comment) comment ;;
      postStorage.insert (post_id post) post ;;
      mret (Ok comment)
  | None =>
      mret (Err ("A post with id=" +:+ cp_postId payload +:+ " was not found."))
  end.

(** The inner [match] of [deleteComment]: the copy of the owning post that
    [get] returned, after the conditional [splice].  The handler does
    nothing with it afterwards. *)
Definition spliced_copy (id : string) (o : option Post) : option Post :=
  match o with
  | Some post =>
      let index := indexOf (post_comments post) id in
      if (-1 <? index)%Z
      then Some (set_comments (splice1 (post_comments post) index) post)
      else Some post
  | None => None
  end.

Definition deleteComment (env : Env) (id : string)
  : M (Result Comment string) :=
  o ← commentStorage.get id;
  match o with
  | Some comment =>
      if decide (comment_sender comment ≠ caller env) then
        mret (Err "You do not have permission to delete this comment.")
      else
        o' ← postStorage.get (comment_postId comment);
        let _post := spliced_copy id o' in
        commentStorage.remove id ;;
        mret (Ok comment)
  | None =>
      mret (Err ("Couldn't delete a comment with id=" +:+ id
                 +:+ ". Comment not found."))
  end.

Definition deletePost (env : Env) (id : string) : M (Result Post string) :=
  o ← postStorage.get id;
  match o with
  | Some post =>
      if decide (post_owner post ≠ caller env) then
        mret (Err "You do not have permission to delete this post.")
      else
        comments ← commentStorage.values;
        forEach comments (λ comment,
          if decide (comment_postId comment = id)
          then commentStorage.remove (comment_id comment)
          else mret tt) ;;
        postStorage.remove id ;;
        mret (Ok post)
  | None =>
      mret (Err ("Couldn't delete a post with id=" +:+ id +:+ ". Post not found."))
  end.

(** ** Calls, replies and the transition function *)

Inductive Call : Type :=
| GetPosts
| GetPost (id : string)
| CreatePost (payload : PostPayload)
| UpdatePost (id : string) (payload : PostPayload)
| LikePost (postId : string)
| GetCommentsOnPost (postId : string)
| CommentOnPost (payload : CommentPayload)
| DeleteComment (id : string)
| DeletePost (id : string).

#[global] Instance PostPayload_eq_dec : EqDecision PostPayload.
Proof. solve_decision. Defined.
#[global] Instance CommentPayload_eq_dec : EqDecision CommentPayload.
Proof. solve_decision. Defined.
#[global] Instance Call_eq_dec : EqDecision Call.
Proof. solve_decision. Defined.

Inductive Reply : Type :=
| RPosts (r : Result (list Post) string)
| RPost (r : Result Post string)
| RComments (r : Result (list Comment) string)
| RComment (r : Result Comment string).

Definition exec (env : Env) (call : Call) : M Reply :=
  match call with
  | GetPosts => RPosts <$> getPosts
  | GetPost id => RPost <$> getPost id
  | CreatePost payload => RPost <$> createPost env payload
  | UpdatePost id payload => RPost <$> updatePost env id payload
  | LikePost postId => RPost <$> likePost postId
  | GetCommentsOnPost postId => RComments <$> getCommentsOnPost postId
  | CommentOnPost payload => RComment <$> commentOnPost env payload
  | DeleteComment id => RComment <$> deleteComment env id
  | DeletePost id => RPost <$> deletePost env id
  end.

(** The spec's error taxonomy, read off the messages the handlers build. *)
Inductive ErrorKind : Type := NotFound | Forbidden.

Fixpoint ends_with (suffix s : string) : bool :=
  if String.eqb s suffix then true
  else match s with
       | EmptyString => false
       | String _ s' => ends_with suffix s'
       end.

Definition error_kind (msg : string) : option ErrorKind :=
  if String.prefix "You do not have permission" msg then Some Forbidden
  else if ends_with "not found." msg then Some NotFound
  else None.

Definition fails_with {A : Type} (k : ErrorKind) (r : Result A string) : Prop :=
  ∃ msg, r = Err msg ∧ error_kind msg = Some k.

Definition is_Err {A E : Type} (r : Result A E) : bool :=
  match r with Ok _ => false | Err _ => true end.

Definition failed (r : Reply) : bool :=
  match r with
  | RPosts r => is_Err r
  | RPost r => is_Err r
  | RComments r => is_Err r
  | RComment r => is_Err r
  end.

(** ** Well-formed and reachable states *)

(** Every record sits under its own id: all inserts of the source are of
    the form [insert(x.id, x)]. *)
Definition posts_keyed (posts : gmap string Post) : Prop :=
  ∀ k post, posts !! k = Some post → post_id post = k.

Definition comments_keyed (comments : gmap string Comment) : Prop :=
  ∀ k comment, comments !! k = Some comment → comment_id comment = k.

Definition wf (s : State) : Prop :=
  posts_keyed (postStorage s) ∧ comments_keyed (commentStorage s).

Inductive reachable : State → Prop :=
| reachable_init : reachable init
| reachable_step env call s :
    reachable s → reachable (exec env call s).2.

(** The range of [likes] on which [js_incr] is [++]. *)
Definition likes_in_range (s : State) : Prop :=
  ∀ k post, postStorage s !! k = Some post → (0 ≤ post_likes post ≤ 2 ^ 53)%Z.

(** [likePost] called [n] times in a row on the same id. *)
Definition likePost_times (n : N) (postId : string) (s : State) : State :=
  N.iter n (λ s', (likePost postId s').2) s.

(** ** Notions used in the statements *)

(** The records that [createPost], [updatePost] and [commentOnPost] build. *)
Definition new_post (env : Env) (payload : PostPayload) : Post :=
  mkPost (uuidv4 env) (pp_title payload) (pp_body payload) (pp_image payload)
         (caller env) 0 (time env) None [].

Definition updated_post (env : Env) (payload : PostPayload) (post : Post) : Post :=
  mkPost (post_id post) (pp_title payload) (pp_body payload) (pp_image payload)
         (post_owner post) (post_likes post) (post_createdAt post)
         (Some (time env)) (post_comments post).

Definition new_comment (env : Env) (payload : CommentPayload) : Comment :=
  mkComment (uuidv4 env) (cp_content payload) (caller env) (cp_postId payload).

(** The comment store after the [for] loop of [deletePost id] has run over
    the snapshot [l]. *)
Definition purge (id : string) (l : list Comment) (m : gmap string Comment)
  : gmap string Comment :=
  foldl (λ m' comment,
           if decide (comment_postId comment = id)
           then delete (comment_id comment) m' else m') m l.

(** Number of occurrences of an id in a sequence. *)
Definition occurrences (x : string) (l : list string) : nat :=
  length (filter (λ y, y = x) l).

(** A sequence without the first occurrence of [x]: what [indexOf]
    followed by [splice(index, 1)] leaves. *)
Fixpoint remove_first (x : string) (l : list string) : list string :=
  match l with
  | [] => []
  | y :: l' => if decide (y = x) then l' else y :: remove_first x l'
  end.

(** An integer as a binary64 value, to compare [js_incr] with the
    machine's addition. *)
Definition binary64_of_Z (z : Z) : float := PrimFloat.of_uint63 (Uint63.of_Z z).

(** ** The stores as constructed: encoded sizes and traps *)

(** [new StableBTreeMap(_, 44, 1024)] bounds the encoded key by 44 bytes and
    the encoded value by 1024 bytes.  Keys and values are kept in their
    Candid encoding; the sizes below follow the Candid binary format: the
    magic number, the type table, the argument types, then the value.
    Strings are taken as their UTF-8 bytes. *)
Definition maxKeySize : N := 44.
Definition maxValueSize : N := 1024.

(** Length of the LEB128 encoding of [n]. *)
Definition leb128_bytes (n : N) : N :=
  if (n =? 0)%N then 1%N else ((N.log2 n + 7) / 7)%N.

Definition byte_length (t : string) : N := N.of_nat (String.length t).

(** A [text] value: its length in LEB128, then its bytes. *)
Definition text_bytes (t : string) : N :=
  (leb128_bytes (byte_length t) + byte_length t)%N.

(** The id Candid gives a record field: a polynomial hash of its name. *)
Definition field_hash (name : string) : N :=
  fold_left (λ h c, ((h * 223 + Ascii.N_of_ascii c) mod 2 ^ 32)%N)
            (String.list_ascii_of_string name) 0%N.

(** A record type in the type table: opcode, number of fields, and per
    field its id in LEB128 and one byte for its type. *)
Definition record_entry_bytes (fields : list string) : N :=
  (1 + leb128_bytes (N.of_nat (length fields))
   + foldr (λ f n, leb128_bytes (field_hash f) + 1 + n) 0 fields)%N.

(** Number of bytes of the principal whose textual form is [p]: the text is
    the base-32 form of a 4-byte checksum and the bytes, in groups of five
    characters separated by dashes. *)
Definition principal_blob_length (p : Principal) : N :=
  (5 * N.of_nat (length (filter (λ c, c ≠ Ascii.ascii_of_nat 45)
                                 (String.list_ascii_of_string p)))
   / 8 - 4)%N.

(** A [principal] value: a flag byte, the length, the bytes. *)
Definition principal_bytes (p : Principal) : N :=
  (1 + leb128_bytes (principal_blob_length p) + principal_blob_length p)%N.

(** A key: magic number, empty type table, one argument of type [text]. *)
Definition key_bytes (id : string) : N := (4 + 1 + 1 + 1 + text_bytes id)%N.

(** A [Post]: the type table holds the record, [opt nat64] and [vec text];
    [likes] is a [float64] and [createdAt] a [nat64], eight bytes each. *)
Definition post_bytes (post : Post) : N :=
  (4 + 1
   + (record_entry_bytes ["id"; "title"; "body"; "image"; "owner"; "likes";
                          "createdAt"; "updatedAt"; "comments"] + 2 + 2)
   + 1 + 1
   + text_bytes (post_id post) + text_bytes (post_title post)
   + text_bytes (post_body post) + text_bytes (post_image post)
   + principal_bytes (post_owner post) + 8 + 8
   + match post_updatedAt post with Some _ => 9 | None => 1 end
   + leb128_bytes (N.of_nat (length (post_comments post)))
   + foldr (λ c n, text_bytes c + n) 0 (post_comments post))%N.

Definition comment_bytes (comment : Comment) : N :=
  (4 + 1 + record_entry_bytes ["id"; "content"; "sender"; "postId"] + 1 + 1
   + text_bytes (comment_id comment) + text_bytes (comment_content comment)
   + principal_bytes (comment_sender comment)
   + text_bytes (comment_postId comment))%N.

Definition post_fits (id : string) (post : Post) : bool :=
  (key_bytes id <=? maxKeySize)%N && (post_bytes post <=? maxValueSize)%N.

Definition comment_fits (id : string) (comment : Comment) : bool :=
  (key_bytes id <=? maxKeySize)%N && (comment_bytes comment <=? maxValueSize)%N.

(** The handlers run against the stores as constructed.  [insert] of a key
    or value over its bound throws; nothing in the handlers catches it, so
    the call traps and the canister keeps the state it had before the
    call.  A computation is a partial state transformer, [None] being the
    trap.  The handlers above are these handlers without the size check:
    they give the reply and the state of every call that does not trap
    ([bounded_exec_refines] below). *)
Module Bounded.

Definition T (A : Type) : Type := State → option (A * State).

#[global] Instance T_ret : MRet T := λ A a s, Some (a, s).
#[global] Instance T_bind : MBind T :=
  λ A B f m s, match m s with Some (a, s') => f a s' | None => None end.
#[global] Instance T_fmap : FMap T :=
  λ A B f m s, match m s with Some (a, s') => Some (f a, s') | None => None end.

(** A store operation that cannot trap. *)
Definition lift {A : Type} (m : M A) : T A := λ s, Some (m s).

Definition postStorage_insert (id : string) (post : Post) : T unit :=
  λ s, if post_fits id post then Some (postStorage.insert id post s) else None.

Definition commentStorage_insert (id : string) (comment : Comment) : T unit :=
  λ s, if comment_fits id comment
       then Some (commentStorage.insert id comment s) else None.

Definition createPost (env : Env) (payload : PostPayload)
  : T (Result Post string) :=
  let post :=
    {| post_id := uuidv4 env;
       post_createdAt := time env;
       post_updatedAt := None;
       post_owner := caller env;
       post_likes := 0;
       post_comments := [];
       post_title := pp_title payload;
       post_body := pp_body payload;
       post_image := pp_image payload |} in
  postStorage_insert (post_id post) post ;;
  mret (Ok post).

Definition updatePost (env : Env) (id : string) (payload : PostPayload)
  : T (Result Post string) :=
  o ← lift (postStorage.get id);
  match o with
  | Some post =>
      if decide (post_owner post ≠ caller env) then
        mret (Err "You do not have permission to update this post.")
      else
        let updatedPost :=
          {| post_id := post_id post;
             post_owner := post_owner post;
             post_likes := post_likes post;
             post_createdAt := post_createdAt post;
             post_comments := post_comments post;
             post_title := pp_title payload;
             post_body := pp_body payload;
             post_image := pp_image payload;
             post_updatedAt := Some (time env) |} in
        postStorage_insert (post_id post) updatedPost ;;
        mret (Ok updatedPost)
  | None =>
      mret (Err ("Couldn't update a post with id=" +:+ id +:+ ". Post not found."))
  end.

Definition likePost (postId : string) : T (Result Post string) :=
  o ← lift (postStorage.get postId);
  match o with
  | Some post =>
      let post := set_likes (js_incr (post_likes post)) post in
      postStorage_insert (post_id post) post ;;
      mret (Ok post)
  | None => mret (Err ("A post with id=" +:+ postId +:+ " was not found."))
  end.

Definition commentOnPost (env : Env) (payload : CommentPayload)
  : T (Result Comment string) :=
  o ← lift (postStorage.get (cp_postId payload));
  match o with
  | Some post =>
      let comment :=
        {| comment_id := uuidv4 env;
           comment_sender := caller env;
           comment_content := cp_content payload;
           comment_postId := cp_postId payload |} in
      let post := set_comments (post_comments post ++ [comment_id comment]) post in
      commentStorage_insert (comment_id comment) comment ;;
      postStorage_insert (post_id post) post ;;
      mret (Ok comment)
  | None =>
      mret (Err ("A post with id=" +:+ cp_postId payload +:+ " was not found."))
  end.

(** The endpoints that insert nothing are the handlers above. *)
Definition exec (env : Env) (call : Call) : T Reply :=
  match call with
  | GetPosts => RPosts <$> lift getPosts
  | GetPost id => RPost <$> lift (getPost id)
  | CreatePost payload => RPost <$> createPost env payload
  | UpdatePost id payload => RPost <$> updatePost env id payload
  | LikePost postId => RPost <$> likePost postId
  | GetCommentsOnPost postId => RComments <$> lift (getCommentsOnPost postId)
  | CommentOnPost payload => RComment <$> commentOnPost env payload
  | DeleteComment id => RComment <$> lift (deleteComment env id)
  | DeletePost id => RPost <$> lift (deletePost env id)
  end.

(** The state of the canister after a call: that of the computation, or the
    one before the call when it trapped. *)
Definition state_after {A : Type} (t : T A) (s : State) : State :=
  match t s with Some (_, s') => s' | None => s end.

End Bounded.

(** [n] copies of a character. *)
Definition repeat_char (c : Ascii.ascii) (n : nat) : string :=
  String.string_of_list_ascii (replicate n c).

(** ** Integrity invariants and the id generator's contract *)

(** No comment refers to a post that is not stored. *)
Definition no_orphans (s : State) : Prop :=
  ∀ k comment, commentStorage s !! k = Some comment →
    is_Some (postStorage s !! comment_postId comment).

(** An id listed in a post's sequence that resolves in the comment store
    resolves to a comment of that post. *)
Definition sequences_consistent (s : State) : Prop :=
  ∀ k post commentId comment,
    postStorage s !! k = Some post →
    commentId ∈ post_comments post →
    commentStorage s !! commentId = Some comment →
    comment_postId comment = k.

(** What a collision-free [uuidv4] gives a call: [createPost] an id that is
    no post id, [commentOnPost] an id that is no comment id and is listed
    in no stored sequence.  The other endpoints generate no id. *)
Definition fresh_id (env : Env) (call : Call) (s : State) : Prop :=
  match call with
  | CreatePost _ => postStorage s !! uuidv4 env = None
  | CommentOnPost _ =>
      commentStorage s !! uuidv4 env = None
      ∧ map_Forall (λ _ post, uuidv4 env ∉ post_comments post) (postStorage s)
  | _ => True
  end.

(** States reached from the empty stores by calls whose generated ids are
    collision-free. *)
Inductive reachable_fresh : State → Prop :=
| reachable_fresh_init : reachable_fresh init
| reachable_fresh_step env call s :
    reachable_fresh s → fresh_id env call s →
    reachable_fresh (exec env call s).2.

(** The post id a call addresses, if any. *)
Definition target_post (env : Env) (call : Call) : option string :=
  match call with
  | CreatePost _ => Some (uuidv4 env)
  | UpdatePost id _ => Some id
  | LikePost postId => Some postId
  | CommentOnPost payload => Some (cp_postId payload)
  | DeletePost id => Some id
  | GetPosts | GetPost _ | GetCommentsOnPost _ | DeleteComment _ => None
  end.

(** * Properties *)

(** ** Running handlers *)

Lemma M_fmap_run {A B : Type} (f : A → B) (m : M A) (s : State) :
  (f <$> m) s = (f (m s).1, (m s).2).
Proof. unfold fmap, M_fmap. by destruct (m s). Qed.

Lemma M_bind_run {A B : Type} (f : A → M B) (m : M A) (s : State) :
  (m ≫= f) s = f (m s).1 (m s).2.
Proof. unfold mbind, M_bind. by destruct (m s). Qed.

Ltac run :=
  rewrite ?M_bind_run;
  cbn [postStorage.get postStorage.insert postStorage.remove postStorage.values
       commentStorage.get commentStorage.insert commentStorage.remove
       commentStorage.values fst snd mret M_ret postStorage commentStorage].

(** The scenario of the specification's section 8, run on the model. *)
Example section8_scenario :
  let X := mkEnv "X" 1%N "P" in
  let Y := mkEnv "Y" 2%N "C" in
  let s1 := (createPost X (mkPostPayload "A" "B" "") init).2 in
  let s2 := (likePost "P" (likePost "P" s1).2).2 in
  let s3 := (commentOnPost Y (mkCommentPayload "hi" "P") s2).2 in
  let r4 := deleteComment X "C" s3 in
  let r5 := deleteComment Y "C" r4.2 in
  is_Err r4.1 = true ∧ r4.2 = s3 ∧
  r5.1 = Ok (mkComment "C" "hi" "Y" "P") ∧
  (getCommentsOnPost "P" r5.2).1 = Ok [] ∧
  post_likes <$> (postStorage r5.2 !! "P") = Some 2%Z ∧
  post_comments <$> (postStorage r5.2 !! "P") = Some ["C"].
Proof. vm_compute. repeat split; reflexivity. Qed.

(** ** Error messages and their kinds *)

Lemma ends_with_app (suffix a b : string) :
  ends_with suffix b = true → ends_with suffix (a +:+ b) = true.
Proof.
  intros Hb. induction a as [|c a IH]; [done|].
  change (String c a +:+ b) with (String c (a +:+ b)).
  cbn [ends_with]. by case (String.eqb (String c (a +:+ b)) suffix).
Qed.

Lemma kind_post_not_found (id : string) :
  error_kind ("A post with id=" +:+ id +:+ " was not found.") = Some NotFound.
Proof.
  unfold error_kind.
  replace (String.prefix _ _) with false by reflexivity.
  rewrite ends_with_app; [done|]. by apply ends_with_app.
Qed.

Lemma kind_update_not_found (id : string) :
  error_kind ("Couldn't update a post with id=" +:+ id +:+ ". Post not found.")
  = Some NotFound.
Proof.
  unfold error_kind.
  replace (String.prefix _ _) with false by reflexivity.
  rewrite ends_with_app; [done|]. by apply ends_with_app.
Qed.

Lemma kind_delete_comment_not_found (id : string) :
  error_kind ("Couldn't delete a comment with id=" +:+ id +:+ ". Comment not found.")
  = Some NotFound.
Proof.
  unfold error_kind.
  replace (String.prefix _ _) with false by reflexivity.
  rewrite ends_with_app; [done|]. by apply ends_with_app.
Qed.

Lemma kind_delete_post_not_found (id : string) :
  error_kind ("Couldn't delete a post with id=" +:+ id +:+ ". Post not found.")
  = Some NotFound.
Proof.
  unfold error_kind.
  replace (String.prefix _ _) with false by reflexivity.
  rewrite ends_with_app; [done|]. by apply ends_with_app.
Qed.

Lemma kind_forbidden_update :
  error_kind "You do not have permission to update this post." = Some Forbidden.
Proof. reflexivity. Qed.

Lemma kind_forbidden_delete_comment :
  error_kind "You do not have permission to delete this comment." = Some Forbidden.
Proof. reflexivity. Qed.

Lemma kind_forbidden_delete_post :
  error_kind "You do not have permission to delete this post." = Some Forbidden.
Proof. reflexivity. Qed.

(** ** What each handler computes *)

Lemma getPost_run (id : string) (s : State) :
  getPost id s =
  (match postStorage s !! id with
   | Some post => Ok post
   | None => Err ("A post with id=" +:+ id +:+ " was not found.")
   end, s).
Proof. unfold getPost. run. by destruct (postStorage s !! id). Qed.

Lemma createPost_run (env : Env) (payload : PostPayload) (s : State) :
  createPost env payload s =
  (Ok (new_post env payload),
   mkState (<[uuidv4 env := new_post env payload]> (postStorage s))
           (commentStorage s)).
Proof. reflexivity. Qed.

Lemma updatePost_run (env : Env) (id : string) (payload : PostPayload) (s : State) :
  updatePost env id payload s =
  match postStorage s !! id with
  | Some post =>
      if decide (post_owner post ≠ caller env)
      then (Err "You do not have permission to update this post.", s)
      else (Ok (updated_post env payload post),
            mkState (<[post_id post := updated_post env payload post]> (postStorage s))
                    (commentStorage s))
  | None =>
      (Err ("Couldn't update a post with id=" +:+ id +:+ ". Post not found."), s)
  end.
Proof.
  unfold updatePost. run. destruct (postStorage s !! id) as [post|]; [|done].
  by destruct (decide (post_owner post ≠ caller env)).
Qed.

Lemma likePost_run (postId : string) (s : State) :
  likePost postId s =
  match postStorage s !! postId with
  | Some post =>
      (Ok (set_likes (js_incr (post_likes post)) post),
       mkState (<[post_id post := set_likes (js_incr (post_likes post)) post]>
                  (postStorage s))
               (commentStorage s))
  | None => (Err ("A post with id=" +:+ postId +:+ " was not found."), s)
  end.
Proof. unfold likePost. run. by destruct (postStorage s !! postId). Qed.

Lemma collectComments_run (ids : list string) (acc : list Comment) (s : State) :
  collectComments ids acc s =
  ((acc ++ omap (λ commentId, commentStorage s !! commentId) ids)%list, s).
Proof.
  revert acc. induction ids as [|commentId ids IH]; intros acc.
  - simpl. by rewrite app_nil_r.
  - cbn [collectComments omap list_omap]. run.
    destruct (commentStorage s !! commentId) as [comment|]; rewrite IH; [|done].
    by rewrite <- app_assoc.
Qed.

Lemma getCommentsOnPost_run (postId : string) (s : State) :
  getCommentsOnPost postId s =
  (match postStorage s !! postId with
   | Some post =>
       Ok (omap (λ commentId, commentStorage s !! commentId) (post_comments post))
   | None => Err ("A post with id=" +:+ postId +:+ " was not found.")
   end, s).
Proof.
  unfold getCommentsOnPost. run.
  destruct (postStorage s !! postId) as [post|]; [|done].
  run. by rewrite collectComments_run.
Qed.

Lemma commentOnPost_run (env : Env) (payload : CommentPayload) (s : State) :
  commentOnPost env payload s =
  match postStorage s !! cp_postId payload with
  | Some post =>
      (Ok (new_comment env payload),
       mkState (<[post_id post :=
                    set_comments (post_comments post ++ [uuidv4 env]) post]>
                  (postStorage s))
               (<[uuidv4 env := new_comment env payload]> (commentStorage s)))
  | None =>
      (Err ("A post with id=" +:+ cp_postId payload +:+ " was not found."), s)
  end.
Proof. unfold commentOnPost. run. by destruct (postStorage s !! cp_postId payload). Qed.

Lemma deleteComment_run (env : Env) (id : string) (s : State) :
  deleteComment env id s =
  match commentStorage s !! id with
  | Some comment =>
      if decide (comment_sender comment ≠ caller env)
      then (Err "You do not have permission to delete this comment.", s)
      else (Ok comment, mkState (postStorage s) (delete id (commentStorage s)))
  | None =>
      (Err ("Couldn't delete a comment with id=" +:+ id +:+ ". Comment not found."), s)
  end.
Proof.
  unfold deleteComment. run. destruct (commentStorage s !! id) as [comment|]; [|done].
  by destruct (decide (comment_sender comment ≠ caller env)).
Qed.

(** ** The cascade of [deletePost] *)

Lemma forEach_purge (id : string) (l : list Comment) (s : State) :
  forEach l (λ comment,
    if decide (comment_postId comment = id)
    then commentStorage.remove (comment_id comment)
    else mret tt) s
  = (tt, mkState (postStorage s) (purge id l (commentStorage s))).
Proof.
  revert s. induction l as [|c l IH]; intros s.
  - by destruct s.
  - cbn [forEach]. run. unfold purge. cbn [foldl].
    destruct (decide (comment_postId c = id)); run; by rewrite IH.
Qed.

Lemma lookup_purge (id : string) (l : list Comment) (m : gmap string Comment)
      (k : string) :
  purge id l m !! k =
  if decide (Exists (λ c, comment_postId c = id ∧ comment_id c = k) l)
  then None else m !! k.
Proof.
  revert m. induction l as [|c l IH]; intros m.
  - unfold purge. cbn [foldl]. case_decide as H; [|done]. by apply Exists_nil in H.
  - change (purge id (c :: l) m)
      with (purge id l (if decide (comment_postId c = id)
                        then delete (comment_id c) m else m)).
    rewrite IH.
    destruct (decide (Exists (λ c, comment_postId c = id ∧ comment_id c = k) l))
      as [Hl|Hl].
    { by rewrite decide_True by (by apply Exists_cons_tl). }
    destruct (decide (comment_postId c = id)) as [Hc|Hc].
    + destruct (decide (comment_id c = k)) as [Hk|Hk].
      * rewrite decide_True by (by apply Exists_cons_hd).
        subst k. apply lookup_delete_eq.
      * rewrite decide_False by (by intros [[]|]%Exists_cons).
        by apply lookup_delete_ne.
    + by rewrite decide_False by (by intros [[]|]%Exists_cons).
Qed.

(** The loop's outcome does not depend on the order in which [values]
    lists the store. *)
Lemma purge_Permutation (id : string) (l l' : list Comment)
      (m : gmap string Comment) :
  l ≡ₚ l' → purge id l m = purge id l' m.
Proof.
  intros Hp. apply map_eq. intros k. rewrite !lookup_purge.
  assert (Exists (λ c, comment_postId c = id ∧ comment_id c = k) l
          ↔ Exists (λ c, comment_postId c = id ∧ comment_id c = k) l') as Hiff.
  { rewrite !Exists_exists. by setoid_rewrite Hp. }
  destruct (decide (Exists _ l)) as [H|H].
  - by rewrite decide_True by (by apply Hiff).
  - by rewrite decide_False by (by rewrite <- Hiff).
Qed.

Lemma purge_values (id : string) (m : gmap string Comment) :
  comments_keyed m →
  purge id (map_to_list m).*2 m = filter (λ kc, comment_postId kc.2 ≠ id) m.
Proof.
  intros Hk. apply map_eq. intros k. rewrite lookup_purge.
  apply option_eq. intros c. rewrite map_lookup_filter_Some. cbn [snd].
  case_decide as H.
  - split; [done|]. intros [Hc Hne]. exfalso. apply Hne.
    apply Exists_exists in H as (c' & Hin & Hpost & Hid).
    apply list_elem_of_fmap in Hin as ([k' c''] & -> & Hin).
    apply elem_of_map_to_list in Hin. cbn [snd] in *.
    rewrite (Hk _ _ Hin) in Hid. subst k'. congruence.
  - split; [|by intros [? _]]. intros Hc. split; [done|]. intros Hpost.
    apply H. apply Exists_exists. exists c. split; [|by rewrite (Hk _ _ Hc)].
    apply list_elem_of_fmap. exists (k, c). split; [done|].
    by apply elem_of_map_to_list.
Qed.

Lemma deletePost_run (env : Env) (id : string) (s : State) :
  deletePost env id s =
  match postStorage s !! id with
  | Some post =>
      if decide (post_owner post ≠ caller env)
      then (Err "You do not have permission to delete this post.", s)
      else (Ok post,
            mkState (delete id (postStorage s))
                    (purge id (map_to_list (commentStorage s)).*2 (commentStorage s)))
  | None =>
      (Err ("Couldn't delete a post with id=" +:+ id +:+ ". Post not found."), s)
  end.
Proof.
  unfold deletePost. run. destruct (postStorage s !! id) as [post|]; [|done].
  destruct (decide (post_owner post ≠ caller env)); [done|].
  run. rewrite forEach_purge. by run.
Qed.

(** ** Well-formedness is an invariant *)

Lemma getPosts_run (s : State) :
  getPosts s = (Ok (map_to_list (postStorage s)).*2, s).
Proof. reflexivity. Qed.

Ltac exec_cases call :=
  destruct call; cbn [exec];
  rewrite M_fmap_run,
    ?getPosts_run, ?getPost_run, ?createPost_run, ?updatePost_run,
    ?likePost_run, ?getCommentsOnPost_run, ?commentOnPost_run,
    ?deleteComment_run, ?deletePost_run;
  repeat case_match; cbn [fst snd postStorage commentStorage].

Lemma posts_keyed_insert (posts : gmap string Post) (post : Post) :
  posts_keyed posts → posts_keyed (<[post_id post := post]> posts).
Proof.
  intros Hk k p. rewrite lookup_insert. case_decide; [|by apply Hk].
  by intros [= <-].
Qed.

Lemma posts_keyed_delete (posts : gmap string Post) (id : string) :
  posts_keyed posts → posts_keyed (delete id posts).
Proof. intros Hk k p Hp. apply lookup_delete_Some in Hp as [_ Hp]. by apply Hk. Qed.

Lemma comments_keyed_insert (comments : gmap string Comment) (c : Comment) :
  comments_keyed comments → comments_keyed (<[comment_id c := c]> comments).
Proof.
  intros Hk k p. rewrite lookup_insert. case_decide; [|by apply Hk].
  by intros [= <-].
Qed.

Lemma comments_keyed_delete (comments : gmap string Comment) (id : string) :
  comments_keyed comments → comments_keyed (delete id comments).
Proof. intros Hk k p Hp. apply lookup_delete_Some in Hp as [_ Hp]. by apply Hk. Qed.

Lemma comments_keyed_purge (comments : gmap string Comment) (id : string)
      (l : list Comment) :
  comments_keyed comments → comments_keyed (purge id l comments).
Proof.
  intros Hk k c. rewrite lookup_purge. case_decide; [done|]. apply Hk.
Qed.

Lemma wf_init : wf init.
Proof. split; intros k x; cbn [init postStorage commentStorage]; by rewrite lookup_empty. Qed.

Lemma wf_exec (env : Env) (call : Call) (s : State) :
  wf s → wf (exec env call s).2.
Proof.
  intros [Hp Hc]. exec_cases call; split; try done.
  - by apply (posts_keyed_insert _ (new_post env payload)).
  - by apply (posts_keyed_insert _ (updated_post env payload _)).
  - by apply (posts_keyed_insert _ (set_likes _ _)).
  - by apply (posts_keyed_insert _ (set_comments _ _)).
  - by apply (comments_keyed_insert _ (new_comment env payload)).
  - by apply comments_keyed_delete.
  - by apply posts_keyed_delete.
  - by apply comments_keyed_purge.
Qed.

Lemma reachable_wf (s : State) : reachable s → wf s.
Proof. induction 1; [apply wf_init | by apply wf_exec]. Qed.

(** * The claims *)

(** ** Failures *)

(** C4. Whenever a call returns an error, the state after the call is the
    state before it: both stores are exactly as they were, so no record is
    half-written or created and both stores keep their sizes.  This holds
    for all nine endpoints, among them [updatePost], [likePost],
    [commentOnPost], [deleteComment] and [deletePost]. *)
Theorem failed_call_changes_nothing (env : Env) (call : Call) (s : State) :
  failed (exec env call s).1 = true →
  (exec env call s).2 = s
  ∧ size (postStorage (exec env call s).2) = size (postStorage s)
  ∧ size (commentStorage (exec env call s).2) = size (commentStorage s).
Proof.
  intros Hfail.
  assert ((exec env call s).2 = s) as ->; [|done].
  revert Hfail. exec_cases call; done.
Qed.

Lemma failed_call_changes_nothing_witness :
  let env := mkEnv "mallory" 7%N "id-1" in
  let s := (createPost (mkEnv "alice" 1%N "p1") (mkPostPayload "t" "b" "i") init).2 in
  let call := UpdatePost "p1" (mkPostPayload "x" "y" "z") in
  failed (exec env call s).1 = true
  ∧ (exec env call s).2 = s
  ∧ size (postStorage (exec env call s).2) = size (postStorage s)
  ∧ size (commentStorage (exec env call s).2) = size (commentStorage s).
Proof.
  intros env s call. split; [reflexivity|].
  apply (failed_call_changes_nothing env call s). reflexivity.
Defined.

(** C5. For [updatePost], [deleteComment] and [deletePost]: when the target
    id is not in its store the result is NotFound, whoever the caller is
    (existence is checked before ownership); when the target is there and
    the caller differs from the recorded owner (posts) or sender (comments),
    the result is Forbidden and the state is untouched. *)
Theorem existence_then_authorization (env : Env) (id : string)
        (payload : PostPayload) (s : State) :
  (postStorage s !! id = None →
     fails_with NotFound (updatePost env id payload s).1
     ∧ fails_with NotFound (deletePost env id s).1)
  ∧ (commentStorage s !! id = None →
     fails_with NotFound (deleteComment env id s).1)
  ∧ (∀ post, postStorage s !! id = Some post → post_owner post ≠ caller env →
     fails_with Forbidden (updatePost env id payload s).1
     ∧ (updatePost env id payload s).2 = s
     ∧ fails_with Forbidden (deletePost env id s).1
     ∧ (deletePost env id s).2 = s)
  ∧ (∀ comment, commentStorage s !! id = Some comment →
     comment_sender comment ≠ caller env →
     fails_with Forbidden (deleteComment env id s).1
     ∧ (deleteComment env id s).2 = s).
Proof.
  rewrite updatePost_run, deletePost_run, deleteComment_run.
  split; [|split; [|split]].
  - intros ->. split; (eexists; split; [done|]).
    + apply kind_update_not_found.
    + apply kind_delete_post_not_found.
  - intros ->. eexists. split; [done|]. apply kind_delete_comment_not_found.
  - intros post -> Hne. rewrite !decide_True by done.
    repeat split; by eexists.
  - intros comment -> Hne. rewrite !decide_True by done.
    repeat split; by eexists.
Qed.

Lemma existence_then_authorization_witness :
  let alice := mkEnv "alice" 1%N "p1" in
  let bob := mkEnv "bob" 2%N "c1" in
  let mallory := mkEnv "mallory" 3%N "x" in
  let payload := mkPostPayload "t" "b" "i" in
  let s := (commentOnPost bob (mkCommentPayload "hi" "p1")
              (createPost alice payload init).2).2 in
  (fails_with NotFound (updatePost mallory "nope" payload s).1
   ∧ fails_with NotFound (deletePost mallory "nope" s).1)
  ∧ fails_with NotFound (deleteComment mallory "nope" s).1
  ∧ (fails_with Forbidden (updatePost mallory "p1" payload s).1
     ∧ (updatePost mallory "p1" payload s).2 = s
     ∧ fails_with Forbidden (deletePost mallory "p1" s).1
     ∧ (deletePost mallory "p1" s).2 = s)
  ∧ (fails_with Forbidden (deleteComment mallory "c1" s).1
     ∧ (deleteComment mallory "c1" s).2 = s).
Proof.
  intros alice bob mallory payload s.
  split; [|split; [|split]].
  - apply (existence_then_authorization mallory "nope" payload s). reflexivity.
  - apply (existence_then_authorization mallory "nope" payload s). reflexivity.
  - apply (existence_then_authorization mallory "p1" payload s
             ) with (post := set_comments ["c1"] (new_post alice payload));
      [reflexivity | discriminate].
  - apply (existence_then_authorization mallory "c1" payload s
             ) with (comment := mkComment "c1" "hi" "bob" "p1");
      [reflexivity | discriminate].
Defined.

(** ** Reads *)

(** C7. [getCommentsOnPost postId] (the spec's [listCommentsForPost]) fails
    with NotFound when no post is stored under [postId]; otherwise it
    returns, in the order of the post's [comments] sequence, the records
    that the ids of the sequence resolve to in the comment store, leaving
    out without error every id that does not resolve; it changes neither
    store. *)
Theorem getCommentsOnPost_resolves (postId : string) (s : State) :
  (postStorage s !! postId = None →
     fails_with NotFound (getCommentsOnPost postId s).1)
  ∧ (∀ post, postStorage s !! postId = Some post →
     (getCommentsOnPost postId s).1
     = Ok (omap (λ commentId, commentStorage s !! commentId) (post_comments post)))
  ∧ (getCommentsOnPost postId s).2 = s.
Proof.
  rewrite getCommentsOnPost_run. split; [|split; [|done]].
  - intros ->. eexists. split; [done|]. apply kind_post_not_found.
  - by intros post ->.
Qed.

Lemma getCommentsOnPost_resolves_witness :
  let s := mkState
             {[ "p1" := mkPost "p1" "t" "b" "i" "alice" 0 1%N None ["c1"; "gone"; "c2"] ]}
             {[ "c1" := mkComment "c1" "one" "bob" "p1";
                "c2" := mkComment "c2" "two" "carol" "p1" ]} in
  fails_with NotFound (getCommentsOnPost "p2" s).1
  ∧ (getCommentsOnPost "p1" s).1
    = Ok [mkComment "c1" "one" "bob" "p1"; mkComment "c2" "two" "carol" "p1"]
  ∧ (getCommentsOnPost "p1" s).2 = s.
Proof.
  intros s. split; [|split].
  - apply (getCommentsOnPost_resolves "p2" s). reflexivity.
  - apply (getCommentsOnPost_resolves "p1" s
             ) with (post := mkPost "p1" "t" "b" "i" "alice" 0 1%N None
                                    ["c1"; "gone"; "c2"]).
    reflexivity.
  - apply (getCommentsOnPost_resolves "p1" s).
Defined.

(** ** Creating posts *)

(** ** Commenting *)

Lemma occurrences_absent (x : string) (l : list string) :
  x ∉ l → occurrences x l = 0.
Proof.
  unfold occurrences. induction l as [|y l IH]; [done|].
  intros Hx. apply not_elem_of_cons in Hx as [Hne Hx].
  rewrite filter_cons_False by done. by apply IH.
Qed.

Lemma occurrences_snoc_fresh (x : string) (l : list string) :
  x ∉ l → occurrences x (l ++ [x]) = 1.
Proof.
  intros Hx. pose proof (occurrences_absent x l Hx) as H0.
  unfold occurrences in *. rewrite filter_app, length_app, H0.
  by rewrite filter_cons_True.
Qed.

(** C6. For every stored post [P] and payload with [postId = P.id],
    [commentOnPost] succeeds and returns a comment whose sender is the
    caller and whose id is the freshly generated one (fresh: not already in
    [P]'s sequence).  Afterwards the post stored under [P.id] is [P] with
    that id appended, where it occurs exactly once; the comment record is in
    the comment store; and [getCommentsOnPost P.id] lists it.  Insertion
    and append are both in the state the call returns. *)
Theorem commentOnPost_inserts_and_appends
        (env : Env) (payload : CommentPayload) (s : State) (P : Post) :
  postStorage s !! post_id P = Some P →
  cp_postId payload = post_id P →
  uuidv4 env ∉ post_comments P →
  let comment :=
    {| comment_id := uuidv4 env;
       comment_content := cp_content payload;
       comment_sender := caller env;
       comment_postId := post_id P |} in
  let s' := (commentOnPost env payload s).2 in
  (commentOnPost env payload s).1 = Ok comment
  ∧ postStorage s' !! post_id P
    = Some (set_comments (post_comments P ++ [uuidv4 env]) P)
  ∧ occurrences (uuidv4 env) (post_comments P ++ [uuidv4 env]) = 1
  ∧ commentStorage s' !! uuidv4 env = Some comment
  ∧ ∃ l, (getCommentsOnPost (post_id P) s').1 = Ok l ∧ comment ∈ l.
Proof.
  intros HP Hid Hfresh comment s'. subst s'.
  rewrite commentOnPost_run, Hid, HP. cbn [fst snd].
  assert (new_comment env payload = comment) as ->.
  { unfold new_comment, comment. by rewrite Hid. }
  split; [done|]. split; [apply lookup_insert_eq|].
  split; [by apply occurrences_snoc_fresh|].
  split; [apply lookup_insert_eq|].
  rewrite getCommentsOnPost_run. cbn [fst postStorage commentStorage].
  rewrite lookup_insert_eq. eexists. split; [done|].
  apply list_elem_of_omap. exists (uuidv4 env). split.
  - cbn [post_comments set_comments]. apply elem_of_app. right. by left.
  - apply lookup_insert_eq.
Qed.

Lemma commentOnPost_inserts_and_appends_witness :
  let alice := mkEnv "alice" 1%N "p1" in
  let bob := mkEnv "bob" 2%N "c1" in
  let payload := mkCommentPayload "hi" "p1" in
  let P := new_post alice (mkPostPayload "t" "b" "i") in
  let s := (createPost alice (mkPostPayload "t" "b" "i") init).2 in
  let comment := mkComment "c1" "hi" "bob" "p1" in
  let s' := (commentOnPost bob payload s).2 in
  (commentOnPost bob payload s).1 = Ok comment
  ∧ postStorage s' !! "p1" = Some (set_comments ["c1"] P)
  ∧ occurrences "c1" ["c1"] = 1
  ∧ commentStorage s' !! "c1" = Some comment
  ∧ ∃ l, (getCommentsOnPost "p1" s').1 = Ok l ∧ comment ∈ l.
Proof.
  intros alice bob payload P s comment s'.
  apply (commentOnPost_inserts_and_appends bob payload s P).
  - reflexivity.
  - reflexivity.
  - cbn. apply not_elem_of_nil.
Defined.

(** ** Deleting *)

(** C3. For every post [p] stored under its id and owned by the caller (in
    a state where comments sit under their own ids), [deletePost p.id]
    returns [p] as it was stored, removes [p] from the post store, and
    leaves in the comment store exactly the comments whose [postId] is not
    [p.id]: every comment with that [postId] is removed, whether or not its
    id is in [p]'s own sequence, and none remains. *)
Theorem deletePost_cascades (env : Env) (s : State) (p : Post) :
  comments_keyed (commentStorage s) →
  postStorage s !! post_id p = Some p →
  post_owner p = caller env →
  let s' := (deletePost env (post_id p) s).2 in
  (deletePost env (post_id p) s).1 = Ok p
  ∧ postStorage s' = delete (post_id p) (postStorage s)
  ∧ commentStorage s'
    = filter (λ kc, comment_postId kc.2 ≠ post_id p) (commentStorage s)
  ∧ (∀ k c, commentStorage s !! k = Some c → comment_postId c = post_id p →
       commentStorage s' !! k = None)
  ∧ (∀ k c, commentStorage s' !! k = Some c → comment_postId c ≠ post_id p).
Proof.
  intros Hk Hp Howner s'. subst s'.
  rewrite deletePost_run, Hp, decide_False by (by intros []).
  cbn [fst snd postStorage commentStorage]. rewrite purge_values by done.
  repeat split.
  - intros k c Hc Hpost. apply map_lookup_filter_None. right.
    intros c' Hc'. cbn [snd]. intros Hne. congruence.
  - intros k c [_ Hne]%map_lookup_filter_Some. done.
Qed.

Lemma deletePost_cascades_witness :
  let alice := mkEnv "alice" 1%N "p1" in
  let p := mkPost "p1" "t" "b" "i" "alice" 0 1%N None ["c1"] in
  let s := mkState
             {[ "p1" := p;
                "p2" := mkPost "p2" "t" "b" "i" "bob" 0 1%N None ["c3"] ]}
             {[ "c1" := mkComment "c1" "listed" "bob" "p1";
                "c2" := mkComment "c2" "unlisted" "carol" "p1";
                "c3" := mkComment "c3" "elsewhere" "carol" "p2" ]} in
  let s' := (deletePost alice "p1" s).2 in
  (deletePost alice "p1" s).1 = Ok p
  ∧ postStorage s' = delete "p1" (postStorage s)
  ∧ commentStorage s' = filter (λ kc, comment_postId kc.2 ≠ "p1") (commentStorage s)
  ∧ (∀ k c, commentStorage s !! k = Some c → comment_postId c = "p1" →
       commentStorage s' !! k = None)
  ∧ (∀ k c, commentStorage s' !! k = Some c → comment_postId c ≠ "p1").
Proof.
  intros alice p s s'.
  apply (deletePost_cascades alice s p).
  - change (map_Forall (λ k c, comment_id c = k) (commentStorage s)).
    apply (bool_decide_unpack _). vm_compute. exact I.
  - reflexivity.
  - reflexivity.
Defined.

Example deletePost_removes_unlisted_comment :
  let alice := mkEnv "alice" 1%N "p1" in
  let s := mkState
             {[ "p1" := mkPost "p1" "t" "b" "i" "alice" 0 1%N None ["c1"] ]}
             {[ "c1" := mkComment "c1" "listed" "bob" "p1";
                "c2" := mkComment "c2" "unlisted" "carol" "p1";
                "c3" := mkComment "c3" "elsewhere" "carol" "p2" ]} in
  commentStorage (deletePost alice "p1" s).2
  = {[ "c3" := mkComment "c3" "elsewhere" "carol" "p2" ]}.
Proof. vm_compute. reflexivity. Qed.

Lemma indexOf_ge (l : list string) (x : string) : (-1 ≤ indexOf l x)%Z.
Proof.
  induction l as [|y l IH]; cbn [indexOf]; [lia|].
  case_decide; [lia|]. destruct (Z.ltb_spec (indexOf l x) 0); lia.
Qed.

Lemma splice1_indexOf (l : list string) (x : string) :
  remove_first x l
  = if (-1 <? indexOf l x)%Z then splice1 l (indexOf l x) else l.
Proof.
  induction l as [|y l IH]; [done|]. cbn [indexOf remove_first].
  case_decide; [done|]. rewrite IH.
  pose proof (indexOf_ge l x).
  destruct (Z.ltb_spec (indexOf l x) 0) as [Hneg|Hpos].
  - by rewrite (proj2 (Z.ltb_ge _ _)) by lia.
  - rewrite !(proj2 (Z.ltb_lt _ _)) by lia. unfold splice1.
    replace (Z.to_nat (indexOf l x + 1)) with (S (Z.to_nat (indexOf l x))) by lia.
    done.
Qed.

Lemma spliced_copy_Some (id : string) (post : Post) :
  spliced_copy id (Some post)
  = Some (set_comments (remove_first id (post_comments post)) post).
Proof.
  unfold spliced_copy. rewrite splice1_indexOf.
  destruct (-1 <? indexOf (post_comments post) id)%Z; [done|]. by destruct post.
Qed.

(** C2. A successful [deleteComment] leaves the post store as it was: the
    handler never writes to it.  The owning post's stored sequence
    therefore still holds the deleted id if it held it before; the first
    occurrence is dropped only from the copy that [get] returned. *)
Theorem deleteComment_never_writes_posts
        (env : Env) (id : string) (s : State) (comment : Comment) :
  (deleteComment env id s).1 = Ok comment →
  postStorage (deleteComment env id s).2 = postStorage s
  ∧ ∀ post, postStorage s !! comment_postId comment = Some post →
      postStorage (deleteComment env id s).2 !! comment_postId comment = Some post
      ∧ (id ∈ post_comments post →
         ∃ post', postStorage (deleteComment env id s).2 !! comment_postId comment
                  = Some post' ∧ id ∈ post_comments post')
      ∧ spliced_copy id (Some post)
        = Some (set_comments (remove_first id (post_comments post)) post).
Proof.
  rewrite deleteComment_run. intros Hok.
  assert (postStorage
            (match commentStorage s !! id with
             | Some comment =>
                 if decide (comment_sender comment ≠ caller env)
                 then (Err "You do not have permission to delete this comment.", s)
                 else (Ok comment,
                       mkState (postStorage s) (delete id (commentStorage s)))
             | None =>
                 (Err ("Couldn't delete a comment with id=" +:+ id
                       +:+ ". Comment not found."), s)
             end).2 = postStorage s) as ->.
  { destruct (commentStorage s !! id); [|done]. by case_decide. }
  split; [done|]. intros post Hpost. split; [done|].
  split; [by eauto|]. apply spliced_copy_Some.
Qed.

Lemma deleteComment_never_writes_posts_witness :
  let alice := mkEnv "alice" 1%N "p1" in
  let bob := mkEnv "bob" 2%N "c1" in
  let s := (commentOnPost bob (mkCommentPayload "hi" "p1")
              (createPost alice (mkPostPayload "t" "b" "i") init).2).2 in
  let comment := mkComment "c1" "hi" "bob" "p1" in
  (deleteComment bob "c1" s).1 = Ok comment
  ∧ postStorage (deleteComment bob "c1" s).2 = postStorage s
  ∧ ∃ post', postStorage (deleteComment bob "c1" s).2 !! "p1" = Some post'
             ∧ "c1" ∈ post_comments post'.
Proof.
  intros alice bob s comment. split; [reflexivity|].
  destruct (deleteComment_never_writes_posts bob "c1" s comment) as [Hsame Hpost];
    [reflexivity|].
  split; [exact Hsame|].
  destruct (Hpost (mkPost "p1" "t" "b" "i" "alice" 0 1%N None ["c1"]))
    as (_ & Hstill & _); [reflexivity|].
  apply Hstill. cbn. by left.
Defined.

(** C1 (the source departs from it). [deleteComment] by the sender removes
    the comment and returns it, but the post stored under [c.postId] keeps
    [c.id] in its sequence: after [createPost] as alice and [commentOnPost]
    as bob, [deleteComment "c1"] as bob leaves [comments = ["c1"]] in the
    stored post. *)
Theorem deleteComment_stored_sequence_keeps_id :
  let alice := mkEnv "alice" 1%N "p1" in
  let bob := mkEnv "bob" 2%N "c1" in
  let s := (commentOnPost bob (mkCommentPayload "hi" "p1")
              (createPost alice (mkPostPayload "t" "b" "i") init).2).2 in
  let r := deleteComment bob "c1" s in
  commentStorage s !! "c1" = Some (mkComment "c1" "hi" "bob" "p1")
  ∧ r.1 = Ok (mkComment "c1" "hi" "bob" "p1")
  ∧ commentStorage r.2 !! "c1" = None
  ∧ post_comments <$> postStorage s !! "p1" = Some ["c1"]
  ∧ post_comments <$> postStorage r.2 !! "p1" = Some ["c1"]
  ∧ remove_first "c1" ["c1"] = [].
Proof. vm_compute. repeat split; reflexivity. Qed.

(** ** Likes *)

Lemma js_incr_exact (x : Z) : (x < 2 ^ 53)%Z → js_incr x = (x + 1)%Z.
Proof. intros Hx. unfold js_incr. by rewrite (proj2 (Z.ltb_lt _ _)). Qed.

Lemma js_incr_ge (x : Z) : (x ≤ js_incr x)%Z.
Proof. unfold js_incr. destruct (Z.ltb_spec x (2 ^ 53)); lia. Qed.

Lemma js_incr_min (a : Z) :
  js_incr (Z.min a (2 ^ 53)) = Z.min (a + 1) (2 ^ 53).
Proof. unfold js_incr. destruct (Z.ltb_spec (Z.min a (2 ^ 53)) (2 ^ 53)); lia. Qed.

Lemma js_incr_binary64 :
  Forall (λ z, binary64_of_Z (js_incr z) = (binary64_of_Z z + 1)%float)
         [0; 1; 2; 2 ^ 52; 2 ^ 53 - 2; 2 ^ 53 - 1; 2 ^ 53]%Z.
Proof. repeat constructor. Qed.

Lemma js_incr_range (x : Z) :
  (0 ≤ x ≤ 2 ^ 53)%Z → (0 ≤ js_incr x ≤ 2 ^ 53)%Z.
Proof. unfold js_incr. destruct (Z.ltb_spec x (2 ^ 53)); lia. Qed.

(** Every counter the endpoints can produce lies in the range on which
    [js_incr] stands for [++]. *)
Lemma likes_in_range_exec (env : Env) (call : Call) (s : State) :
  likes_in_range s → likes_in_range (exec env call s).2.
Proof.
  intros Hr k q. exec_cases call; try (by apply Hr).
  all: try (rewrite lookup_insert;
            destruct (decide (_ = k)); [intros [= <-]|by apply Hr]).
  - unfold new_post. cbn [post_likes]. lia.
  - unfold updated_post. cbn [post_likes]. by eapply Hr.
  - unfold set_likes. cbn [post_likes]. apply js_incr_range. by eapply Hr.
  - unfold set_comments. cbn [post_likes]. by eapply Hr.
  - intros [_ Hq]%lookup_delete_Some. by eapply Hr.
Qed.

Lemma reachable_likes_in_range (s : State) : reachable s → likes_in_range s.
Proof.
  induction 1 as [|env call s _ IH]; [|by apply likes_in_range_exec].
  intros k post. cbn [init postStorage]. by rewrite lookup_empty.
Qed.

Lemma set_likes_id (post : Post) : set_likes (post_likes post) post = post.
Proof. by destruct post. Qed.

Lemma likePost_times_succ (n : N) (postId : string) (s : State) :
  likePost_times (N.succ n) postId s
  = (likePost postId (likePost_times n postId s)).2.
Proof. unfold likePost_times. by rewrite N.iter_succ. Qed.

Lemma likePost_times_lookup (n : N) (post : Post) (s : State) :
  postStorage s !! post_id post = Some post →
  (0 ≤ post_likes post ≤ 2 ^ 53)%Z →
  postStorage (likePost_times n (post_id post) s) !! post_id post
  = Some (set_likes (Z.min (post_likes post + Z.of_N n) (2 ^ 53)) post).
Proof.
  intros Hpost Hrange. induction n as [|n IH] using N.peano_ind.
  - cbn [likePost_times N.iter Z.of_N]. rewrite Hpost. f_equal.
    rewrite Z.add_0_r, Z.min_l by lia. by rewrite set_likes_id.
  - rewrite likePost_times_succ, likePost_run, IH.
    cbn [snd postStorage post_id set_likes post_likes].
    rewrite lookup_insert_eq, js_incr_min.
    replace (Z.of_N (N.succ n)) with (Z.of_N n + 1)%Z by lia.
    by rewrite Z.add_assoc.
Qed.

(** C9 as stated fails: a post created with [likes = 0] and liked
    2^53 + 1 times stores [likes = 2^53], and one more [likePost] on a post
    whose counter is 2^53 stores 2^53 again. *)
Lemma likePost_stops_counting_at_2_53 :
  let alice := mkEnv "alice" 1%N "p1" in
  let s := (createPost alice (mkPostPayload "t" "b" "i") init).2 in
  let full := mkPost "p1" "t" "b" "i" "alice" (2 ^ 53) 1%N None [] in
  post_likes <$> postStorage (likePost_times (2 ^ 53 + 1) "p1" s) !! "p1"
    = Some (2 ^ 53)%Z
  ∧ post_likes <$> postStorage (likePost_times (2 ^ 53 + 1) "p1" s) !! "p1"
    ≠ Some (Z.of_N (2 ^ 53 + 1))
  ∧ post_likes <$> postStorage (likePost "p1" (mkState {[ "p1" := full ]} ∅)).2 !! "p1"
    = Some (2 ^ 53)%Z.
Proof.
  intros alice s full.
  pose proof (likePost_times_lookup (2 ^ 53 + 1)
                (new_post alice (mkPostPayload "t" "b" "i")) s) as H.
  change (post_id (new_post alice (mkPostPayload "t" "b" "i"))) with "p1" in H.
  specialize (H eq_refl). rewrite H by (cbn; lia).
  split; [reflexivity|]. split; [|reflexivity].
  intros [=].
Qed.

(** C9, amended. [likePost] on an id that is not stored fails with NotFound.
    For every stored post whose counter is an integer from 0 to 2^53 - 1 it
    stores the record with [likes] one higher and returns it; the caller
    plays no part in the outcome.  Hence, for every N up to 2^53, N calls in
    a row on a post created with [likes = 0] leave [likes = N] in the
    store. *)
Theorem likePost_increments_up_to_2_53 (s : State) :
  (∀ postId, postStorage s !! postId = None →
     fails_with NotFound (likePost postId s).1)
  ∧ (∀ post, postStorage s !! post_id post = Some post →
     (0 ≤ post_likes post < 2 ^ 53)%Z →
     let liked := set_likes (post_likes post + 1) post in
     (likePost (post_id post) s).1 = Ok liked
     ∧ postStorage (likePost (post_id post) s).2
       = <[post_id post := liked]> (postStorage s)
     ∧ commentStorage (likePost (post_id post) s).2 = commentStorage s)
  ∧ (∀ env env' postId,
     exec env (LikePost postId) s = exec env' (LikePost postId) s)
  ∧ (∀ env payload (N : N), (N ≤ 2 ^ 53)%N →
     post_likes <$>
       postStorage (likePost_times N (uuidv4 env) (createPost env payload s).2)
         !! uuidv4 env
     = Some (Z.of_N N)).
Proof.
  split; [|split; [|split]].
  - intros postId Hnone. rewrite likePost_run, Hnone.
    eexists. split; [done|]. apply kind_post_not_found.
  - intros post Hpost Hrange liked. subst liked.
    rewrite likePost_run, Hpost, js_incr_exact by lia. done.
  - done.
  - intros env payload N HN.
    pose proof (likePost_times_lookup N (new_post env payload)
                  (createPost env payload s).2) as H.
    cbn [post_id new_post post_likes] in H. rewrite H.
    + cbn [fmap option_fmap option_map post_likes set_likes]. f_equal. lia.
    + rewrite createPost_run. cbn [snd postStorage]. apply lookup_insert_eq.
    + lia.
Qed.

Lemma likePost_increments_up_to_2_53_witness :
  let alice := mkEnv "alice" 1%N "p1" in
  let payload := mkPostPayload "t" "b" "i" in
  let s := (createPost alice payload init).2 in
  let post := new_post alice payload in
  fails_with NotFound (likePost "nope" s).1
  ∧ ((likePost "p1" s).1 = Ok (set_likes 1 post)
     ∧ postStorage (likePost "p1" s).2 = <["p1" := set_likes 1 post]> (postStorage s)
     ∧ commentStorage (likePost "p1" s).2 = commentStorage s)
  ∧ post_likes <$> postStorage (likePost_times 3 "p1" s) !! "p1" = Some 3%Z.
Proof.
  intros alice payload s post. split; [|split].
  - apply (likePost_increments_up_to_2_53 s). reflexivity.
  - apply (likePost_increments_up_to_2_53 s) with (post := post);
      [reflexivity | cbn; lia].
  - apply (likePost_increments_up_to_2_53 init)
      with (env := alice) (payload := payload) (N := 3%N). cbn. lia.
Defined.

(** C10 (invariant I3). In a well-formed state, with the id generator
    handing [createPost] an id that is not already a post id, every call
    leaves the [likes] of every post that is stored both before and after it
    at least as high as it was; any call other than [likePost] leaves it
    equal; and [createPost] stores its new post with [likes = 0]. *)
Theorem likes_never_decrease
        (env : Env) (call : Call) (s : State) (id : string) (post post' : Post) :
  wf s →
  (∀ payload, call = CreatePost payload → postStorage s !! uuidv4 env = None) →
  postStorage s !! id = Some post →
  postStorage (exec env call s).2 !! id = Some post' →
  (post_likes post ≤ post_likes post')%Z
  ∧ ((∀ postId, call ≠ LikePost postId) → post_likes post' = post_likes post)
  ∧ (∀ payload, call = CreatePost payload →
     post_likes <$> postStorage (exec env call s).2 !! uuidv4 env = Some 0%Z).
Proof.
  intros [Hkeyed _] Hfresh Hpost.
  assert (∀ k (p q : Post),
            postStorage s !! k = Some p → post_likes q = post_likes p →
            <[post_id p := q]> (postStorage s) !! id = Some post' →
            post_likes post' = post_likes post) as Hsame.
  { intros k p q Hp Hq. rewrite lookup_insert. case_decide as Hid.
    - intros [= <-]. rewrite <- Hid, (Hkeyed _ _ Hp) in Hpost. congruence.
    - rewrite Hpost. by intros [= <-]. }
  exec_cases call; intros Hpost'.
  all: try (assert (post' = post) as -> by congruence;
            split; [lia|split; [done|discriminate]]).
  - (* createPost *)
    rewrite lookup_insert in Hpost'. case_decide as Hid.
    + subst id. rewrite (Hfresh _ eq_refl) in Hpost. done.
    + assert (post' = post) as -> by congruence.
      split; [lia|split; [done|]]. intros ? _. by rewrite lookup_insert_eq.
  - (* updatePost *)
    rename select (postStorage s !! _ = Some _) into Hp.
    rewrite (Hsame _ _ (updated_post env payload _) Hp eq_refl Hpost').
    split; [lia|split; [done|discriminate]].
  - (* likePost *)
    rename select (postStorage s !! _ = Some _) into Hp.
    split; [|split; [by intros H; destruct (H postId)|discriminate]].
    revert Hpost'. rewrite lookup_insert. case_decide as Hid.
    + intros [= <-]. rewrite <- Hid, (Hkeyed _ _ Hp) in Hpost.
      assert (post = p) as -> by congruence. apply js_incr_ge.
    + rewrite Hpost. intros [= <-]. lia.
  - (* commentOnPost *)
    rename select (postStorage s !! _ = Some _) into Hp.
    rewrite (Hsame _ _ (set_comments _ _) Hp eq_refl Hpost').
    split; [lia|split; [done|discriminate]].
  - (* deletePost *)
    apply lookup_delete_Some in Hpost' as [_ Hpost'].
    assert (post' = post) as -> by congruence.
    split; [lia|split; [done|discriminate]].
Qed.

Lemma likes_never_decrease_witness :
  let alice := mkEnv "alice" 1%N "p1" in
  let bob := mkEnv "bob" 2%N "c1" in
  let s := (createPost alice (mkPostPayload "t" "b" "i") init).2 in
  let post := new_post alice (mkPostPayload "t" "b" "i") in
  (post_likes post ≤ post_likes (set_likes 1 post))%Z
  ∧ ((∀ postId, LikePost "p1" ≠ LikePost postId) →
     post_likes (set_likes 1 post) = post_likes post)
  ∧ (∀ payload, LikePost "p1" = CreatePost payload →
     post_likes <$> postStorage (exec bob (LikePost "p1") s).2 !! uuidv4 bob
     = Some 0%Z).
Proof.
  intros alice bob s post.
  apply (likes_never_decrease bob (LikePost "p1") s "p1" post (set_likes 1 post)).
  - apply (wf_exec alice (CreatePost (mkPostPayload "t" "b" "i")) init), wf_init.
  - discriminate.
  - reflexivity.
  - reflexivity.
Defined.

(** * Further properties of the endpoints *)

(** ** Reads and writes of single records *)

(** X1. [getPosts] never fails and returns the stored posts: one entry per
    key of the post store, a record being listed exactly when it is stored
    under some key; the state is left as it was. *)
Theorem getPosts_lists_the_store (s : State) :
  ∃ l, getPosts s = (Ok l, s)
       ∧ length l = size (postStorage s)
       ∧ ∀ post, post ∈ l ↔ ∃ k, postStorage s !! k = Some post.
Proof.
  exists (map_to_list (postStorage s)).*2. split; [done|]. split.
  - by rewrite length_fmap, length_map_to_list.
  - intros post. rewrite list_elem_of_fmap. split.
    + intros ([k p] & -> & Hin). exists k. by apply elem_of_map_to_list.
    + intros [k Hk]. exists (k, post). split; [done|].
      by apply elem_of_map_to_list.
Qed.

(** X2. When no post is stored under an id, [getPost] on it and
    [commentOnPost] with it as [postId] both fail with NotFound, whoever
    calls and whatever the content, and [commentOnPost] stores nothing. *)
Theorem missing_post_is_NotFound (env : Env) (id content : string) (s : State) :
  postStorage s !! id = None →
  fails_with NotFound (getPost id s).1
  ∧ fails_with NotFound (commentOnPost env (mkCommentPayload content id) s).1
  ∧ (commentOnPost env (mkCommentPayload content id) s).2 = s.
Proof.
  intros Hnone. rewrite getPost_run, commentOnPost_run. cbn [cp_postId].
  rewrite Hnone. repeat split; eexists; (split; [done|]);
    apply kind_post_not_found.
Qed.

Lemma missing_post_is_NotFound_witness :
  let bob := mkEnv "bob" 2%N "c1" in
  fails_with NotFound (getPost "p9" init).1
  ∧ fails_with NotFound (commentOnPost bob (mkCommentPayload "hi" "p9") init).1
  ∧ (commentOnPost bob (mkCommentPayload "hi" "p9") init).2 = init.
Proof.
  intros bob. apply (missing_post_is_NotFound bob "p9" "hi" init). reflexivity.
Defined.

Lemma omap_lookup_delete (id : string) (m : gmap string Comment)
      (ids : list string) :
  comments_keyed m →
  omap (λ commentId, delete id m !! commentId) ids
  = filter (λ c, comment_id c ≠ id) (omap (λ commentId, m !! commentId) ids).
Proof.
  intros Hk. induction ids as [|commentId ids IH]; [done|].
  cbn [omap list_omap]. fold (omap (λ c, delete id m !! c) ids).
  fold (omap (λ c, m !! c) ids). rewrite lookup_delete.
  case_decide as Hid.
  - subst commentId. rewrite IH. destruct (m !! id) as [c|] eqn:Hc; [|done].
    rewrite filter_cons_False; [done|]. intros Hne. apply Hne. by apply Hk.
  - rewrite IH. destruct (m !! commentId) as [c|] eqn:Hc; [|done].
    rewrite filter_cons_True; [done|]. by rewrite (Hk _ _ Hc).
Qed.

(** X4. [deleteComment] by the sender of a stored comment returns the
    record and removes exactly that key from the comment store, whether or
    not the owning post exists; a second [deleteComment] on the id, by
    anyone, fails with NotFound.  With comments stored under their own ids,
    the listing of any post afterwards is its listing before without the
    deleted comment. *)
Theorem deleteComment_by_sender
        (env : Env) (id : string) (s : State) (comment : Comment) :
  commentStorage s !! id = Some comment →
  comment_sender comment = caller env →
  let r := deleteComment env id s in
  r.1 = Ok comment
  ∧ commentStorage r.2 = delete id (commentStorage s)
  ∧ (∀ env', fails_with NotFound (deleteComment env' id r.2).1)
  ∧ (comments_keyed (commentStorage s) →
     ∀ postId l, (getCommentsOnPost postId s).1 = Ok l →
       (getCommentsOnPost postId r.2).1
       = Ok (filter (λ c, comment_id c ≠ id) l)).
Proof.
  intros Hc Hsender r. subst r.
  rewrite deleteComment_run, Hc, decide_False by (by intros []).
  cbn [fst snd]. split; [done|]. split; [done|]. split.
  - intros env'. rewrite deleteComment_run. cbn [commentStorage].
    rewrite lookup_delete_eq. eexists. split; [done|].
    apply kind_delete_comment_not_found.
  - intros Hk postId l. rewrite !getCommentsOnPost_run.
    cbn [fst postStorage commentStorage].
    destruct (postStorage s !! postId) as [post|]; [|done].
    intros [= <-]. by rewrite omap_lookup_delete.
Qed.

Lemma deleteComment_by_sender_witness :
  let alice := mkEnv "alice" 1%N "p1" in
  let bob := mkEnv "bob" 2%N "c1" in
  let carol := mkEnv "carol" 3%N "c2" in
  let s := (commentOnPost carol (mkCommentPayload "yo" "p1")
             (commentOnPost bob (mkCommentPayload "hi" "p1")
               (createPost alice (mkPostPayload "t" "b" "i") init).2).2).2 in
  let r := deleteComment bob "c1" s in
  r.1 = Ok (mkComment "c1" "hi" "bob" "p1")
  ∧ commentStorage r.2 = delete "c1" (commentStorage s)
  ∧ fails_with NotFound (deleteComment carol "c1" r.2).1
  ∧ (getCommentsOnPost "p1" r.2).1 = Ok [mkComment "c2" "yo" "carol" "p1"].
Proof.
  intros alice bob carol s r.
  destruct (deleteComment_by_sender bob "c1" s (mkComment "c1" "hi" "bob" "p1"))
    as (Hok & Hstore & Hagain & Hlist); [reflexivity|reflexivity|].
  split; [exact Hok|]. split; [exact Hstore|]. split; [apply Hagain|].
  apply (Hlist) with (postId := "p1")
    (l := [mkComment "c1" "hi" "bob" "p1"; mkComment "c2" "yo" "carol" "p1"]).
  - change (map_Forall (λ k c, comment_id c = k) (commentStorage s)).
    apply (bool_decide_unpack _). vm_compute. exact I.
  - reflexivity.
Defined.

(** X5. After [deletePost] by the owner, the id is gone for every endpoint:
    [getPost], [getCommentsOnPost], [likePost], [updatePost] and a second
    [deletePost] on it all fail with NotFound, whoever calls. *)
Theorem deletePost_then_NotFound
        (env env' : Env) (payload : PostPayload) (s : State) (post : Post) :
  postStorage s !! post_id post = Some post →
  post_owner post = caller env →
  let s' := (deletePost env (post_id post) s).2 in
  fails_with NotFound (getPost (post_id post) s').1
  ∧ fails_with NotFound (getCommentsOnPost (post_id post) s').1
  ∧ fails_with NotFound (likePost (post_id post) s').1
  ∧ fails_with NotFound (updatePost env' (post_id post) payload s').1
  ∧ fails_with NotFound (deletePost env' (post_id post) s').1.
Proof.
  intros Hpost Howner s'. subst s'.
  rewrite (deletePost_run env), Hpost, decide_False by (by intros []).
  rewrite getPost_run, getCommentsOnPost_run, likePost_run, updatePost_run,
    deletePost_run.
  cbn [fst snd postStorage]. rewrite lookup_delete_eq.
  repeat split; eexists; (split; [done|]).
  - apply kind_post_not_found.
  - apply kind_post_not_found.
  - apply kind_post_not_found.
  - apply kind_update_not_found.
  - apply kind_delete_post_not_found.
Qed.

Lemma deletePost_then_NotFound_witness :
  let alice := mkEnv "alice" 1%N "p1" in
  let bob := mkEnv "bob" 2%N "c1" in
  let payload := mkPostPayload "t" "b" "i" in
  let s := (createPost alice payload init).2 in
  let s' := (deletePost alice "p1" s).2 in
  fails_with NotFound (getPost "p1" s').1
  ∧ fails_with NotFound (getCommentsOnPost "p1" s').1
  ∧ fails_with NotFound (likePost "p1" s').1
  ∧ fails_with NotFound (updatePost bob "p1" payload s').1
  ∧ fails_with NotFound (deletePost bob "p1" s').1.
Proof.
  intros alice bob payload s s'.
  apply (deletePost_then_NotFound alice bob payload s (new_post alice payload));
    reflexivity.
Defined.

(** What [createPost] does to the stores, its size check left out. *)
Lemma createPost_store_effect_unbounded (env : Env) (payload : PostPayload) (s : State) :
  let s' := (createPost env payload s).2 in
  commentStorage s' = commentStorage s
  ∧ (∀ k, k ≠ uuidv4 env → postStorage s' !! k = postStorage s !! k)
  ∧ (postStorage s !! uuidv4 env = None →
     size (postStorage s') = S (size (postStorage s)))
  ∧ (is_Some (postStorage s !! uuidv4 env) →
     size (postStorage s') = size (postStorage s)
     ∧ post_likes <$> postStorage s' !! uuidv4 env = Some 0%Z
     ∧ post_comments <$> postStorage s' !! uuidv4 env = Some []).
Proof.
  intros s'. subst s'. rewrite createPost_run. cbn [snd postStorage commentStorage].
  split; [done|]. split; [|split].
  - intros k Hk. by apply lookup_insert_ne.
  - intros Hnone. by apply map_size_insert_None.
  - intros Hsome. split; [by apply map_size_insert_Some|].
    by rewrite lookup_insert_eq.
Qed.

(** ** Invariants over runs *)

Lemma no_orphans_exec (env : Env) (call : Call) (s : State) :
  wf s → no_orphans s → no_orphans (exec env call s).2.
Proof.
  intros [Hp Hc] Hno k c. exec_cases call; try (by apply Hno).
  - (* createPost *)
    intros Hk. apply lookup_insert_is_Some'. right. by eapply Hno.
  - (* updatePost *)
    intros Hk. apply lookup_insert_is_Some'. right. by eapply Hno.
  - (* likePost *)
    intros Hk. apply lookup_insert_is_Some'. right. by eapply Hno.
  - (* commentOnPost *)
    rename select (postStorage s !! _ = Some _) into Hpost.
    rewrite lookup_insert. case_decide.
    + intros [= <-]. apply lookup_insert_is_Some'. left.
      cbn [post_id set_comments comment_postId new_comment]. by apply Hp.
    + intros Hk. apply lookup_insert_is_Some'. right. by eapply Hno.
  - (* deleteComment *)
    intros [_ Hk]%lookup_delete_Some. by eapply Hno.
  - (* deletePost *)
    rewrite purge_values by done.
    intros [Hk Hne]%map_lookup_filter_Some. cbn [snd] in Hne.
    rewrite lookup_delete_ne by done. by eapply Hno.
Qed.

Lemma reachable_fresh_reachable (s : State) : reachable_fresh s → reachable s.
Proof. induction 1; [apply reachable_init | by apply reachable_step]. Qed.

(** X7. In every state the endpoints can reach from the empty stores, no
    comment is orphaned: the post a stored comment names is stored, so
    [getPost] on its [postId] succeeds.  [commentOnPost] only stores a
    comment for a post it found and [deletePost] removes a post's comments
    with it. *)
Theorem reachable_no_orphans (s : State) (k : string) (comment : Comment) :
  reachable s →
  commentStorage s !! k = Some comment →
  ∃ post, (getPost (comment_postId comment) s).1 = Ok post.
Proof.
  intros Hreach Hk.
  assert (no_orphans s) as Hno.
  { clear k comment Hk. induction Hreach as [|env call s Hreach IH].
    - intros k c. cbn [init commentStorage]. by rewrite lookup_empty.
    - apply no_orphans_exec; [by apply reachable_wf | done]. }
  destruct (Hno _ _ Hk) as [post Hpost]. exists post.
  by rewrite getPost_run, Hpost.
Qed.

Lemma reachable_no_orphans_witness :
  let alice := mkEnv "alice" 1%N "p1" in
  let bob := mkEnv "bob" 2%N "c1" in
  let s := (exec bob (CommentOnPost (mkCommentPayload "hi" "p1"))
             (exec alice (CreatePost (mkPostPayload "t" "b" "i")) init).2).2 in
  ∃ post, (getPost "p1" s).1 = Ok post.
Proof.
  intros alice bob s.
  apply (reachable_no_orphans s "c1" (mkComment "c1" "hi" "bob" "p1")).
  - apply reachable_step, reachable_step, reachable_init.
  - reflexivity.
Defined.

(** X8. In every reachable state records sit under their own ids: a post
    that [getPost id] returns has that id, and every post that [getPosts]
    lists is the one [getPost] returns for its id. *)
Theorem reachable_posts_found_by_id (s : State) :
  reachable s →
  (∀ id post, (getPost id s).1 = Ok post → post_id post = id)
  ∧ (∀ l post, (getPosts s).1 = Ok l → post ∈ l →
       (getPost (post_id post) s).1 = Ok post).
Proof.
  intros [Hp _]%reachable_wf. split.
  - intros id post. rewrite getPost_run. cbn [fst].
    destruct (postStorage s !! id) as [p|] eqn:Hid; [|done].
    intros [= <-]. by apply Hp.
  - intros l post. rewrite getPosts_run. cbn [fst]. intros [= <-].
    intros ([k p] & -> & Hin)%list_elem_of_fmap.
    apply elem_of_map_to_list in Hin. cbn [snd].
    by rewrite getPost_run, (Hp _ _ Hin), Hin.
Qed.

Lemma reachable_posts_found_by_id_witness :
  let alice := mkEnv "alice" 1%N "p1" in
  let s := (exec alice (CreatePost (mkPostPayload "t" "b" "i")) init).2 in
  (∀ id post, (getPost id s).1 = Ok post → post_id post = id)
  ∧ (∀ l post, (getPosts s).1 = Ok l → post ∈ l →
       (getPost (post_id post) s).1 = Ok post).
Proof.
  intros alice s. apply (reachable_posts_found_by_id s).
  apply reachable_step, reachable_init.
Defined.

Lemma sequences_consistent_exec (env : Env) (call : Call) (s : State) :
  wf s → fresh_id env call s →
  sequences_consistent s → sequences_consistent (exec env call s).2.
Proof.
  intros [Hp Hc] Hfresh Hseq k post commentId c.
  exec_cases call; try (by apply Hseq).
  - (* createPost *)
    rewrite lookup_insert. case_decide.
    + intros [= <-]. cbn [post_comments new_post]. by intros ?%elem_of_nil.
    + apply Hseq.
  - (* updatePost *)
    rename select (postStorage s !! _ = Some _) into Hpost.
    rewrite lookup_insert. destruct (decide (post_id _ = k)) as [Hk|Hk]; [|apply Hseq].
    intros [= <-]. cbn [post_comments updated_post]. intros Hin Hcom.
    rewrite <- Hk, (Hp _ _ Hpost). by eapply Hseq.
  - (* likePost *)
    rename select (postStorage s !! _ = Some _) into Hpost.
    rewrite lookup_insert. case_decide as Hk; [|apply Hseq].
    intros [= <-]. cbn [post_comments set_likes]. intros Hin Hcom.
    cbn [post_id set_likes] in Hk. rewrite <- Hk, (Hp _ _ Hpost). by eapply Hseq.
  - (* commentOnPost *)
    rename select (postStorage s !! _ = Some _) into Hpost.
    destruct Hfresh as [Hnew Hunlisted].
    cbn [post_id set_comments]. rewrite (Hp _ _ Hpost).
    rewrite !lookup_insert. case_decide as Hk; case_decide as Hid.
    + intros _ _ [= <-]. by subst k.
    + intros [= <-]. cbn [post_comments set_comments].
      intros [Hin|Hin%list_elem_of_singleton]%elem_of_app; [|done].
      intros Hcom. subst k. by eapply Hseq.
    + intros Hpost' Hin _. subst commentId.
      by destruct (Hunlisted _ _ Hpost').
    + apply Hseq.
  - (* deleteComment *)
    intros Hpost Hin [_ Hcom]%lookup_delete_Some. by eapply Hseq.
  - (* deletePost *)
    rewrite purge_values by done.
    intros [_ Hpost]%lookup_delete_Some Hin [Hcom _]%map_lookup_filter_Some.
    by eapply Hseq.
Qed.

Lemma reachable_fresh_sequences_consistent (s : State) :
  reachable_fresh s → sequences_consistent s.
Proof.
  induction 1 as [|env call s Hreach IH Hfresh].
  - intros k post ? ?. cbn [init postStorage]. by rewrite lookup_empty.
  - apply sequences_consistent_exec; [|done..].
    by apply reachable_wf, reachable_fresh_reachable.
Qed.

(** X9. In every state reached with collision-free ids, [getCommentsOnPost]
    returns only comments of the post asked for: each record it lists has
    that [postId] and is stored under its own id. *)
Theorem listing_returns_only_own_comments
        (s : State) (postId : string) (l : list Comment) (c : Comment) :
  reachable_fresh s →
  (getCommentsOnPost postId s).1 = Ok l →
  c ∈ l →
  comment_postId c = postId ∧ commentStorage s !! comment_id c = Some c.
Proof.
  intros Hreach. pose proof (reachable_fresh_sequences_consistent s Hreach) as Hseq.
  apply reachable_fresh_reachable, reachable_wf in Hreach as [_ Hc].
  rewrite getCommentsOnPost_run. cbn [fst].
  destruct (postStorage s !! postId) as [post|] eqn:Hpost; [|done].
  intros [= <-] (commentId & Hin & Hcom)%list_elem_of_omap. split.
  - by eapply Hseq.
  - by rewrite (Hc _ _ Hcom).
Qed.

Lemma listing_returns_only_own_comments_witness :
  let alice := mkEnv "alice" 1%N "p1" in
  let bob := mkEnv "bob" 2%N "c1" in
  let c := mkComment "c1" "hi" "bob" "p1" in
  let s := (exec bob (CommentOnPost (mkCommentPayload "hi" "p1"))
             (exec alice (CreatePost (mkPostPayload "t" "b" "i")) init).2).2 in
  comment_postId c = "p1" ∧ commentStorage s !! comment_id c = Some c.
Proof.
  intros alice bob c s.
  apply (listing_returns_only_own_comments s "p1" [c] c).
  - apply reachable_fresh_step; [apply reachable_fresh_step|].
    + apply reachable_fresh_init.
    + reflexivity.
    + split; [reflexivity|].
      apply (bool_decide_unpack _). vm_compute. exact I.
  - reflexivity.
  - by left.
Defined.

(** ** What a call leaves alone *)

(** X10. With posts stored under their own ids, a call changes no post
    other than the one it addresses: the record under every other id,
    present or absent, is the same after the call. *)
Theorem untargeted_posts_untouched
        (env : Env) (call : Call) (s : State) (k : string) :
  posts_keyed (postStorage s) →
  target_post env call ≠ Some k →
  postStorage (exec env call s).2 !! k = postStorage s !! k.
Proof.
  intros Hp Hk. revert Hk.
  exec_cases call; try done; cbn [target_post]; intros Hk.
  all: try (rename select (postStorage s !! _ = Some _) into Hpost;
            apply lookup_insert_ne;
            cbn [post_id updated_post set_likes set_comments];
            rewrite (Hp _ _ Hpost); congruence).
  - apply lookup_insert_ne. congruence.
  - apply lookup_delete_ne. congruence.
Qed.

Lemma untargeted_posts_untouched_witness :
  let alice := mkEnv "alice" 1%N "p1" in
  let bob := mkEnv "bob" 2%N "p2" in
  let s := (createPost bob (mkPostPayload "u" "v" "w")
             (createPost alice (mkPostPayload "t" "b" "i") init).2).2 in
  postStorage (exec bob (LikePost "p2") s).2 !! "p1" = postStorage s !! "p1".
Proof.
  intros alice bob s.
  apply (untargeted_posts_untouched bob (LikePost "p2") s "p1").
  - change (map_Forall (λ k p, post_id p = k) (postStorage s)).
    apply (bool_decide_unpack _). vm_compute. exact I.
  - discriminate.
Defined.

(** X11. With comments stored under their own ids, a stored comment is
    still stored, unchanged, after any call other than [deleteComment] on
    its id, [deletePost] on its post, or a [commentOnPost] that is handed
    its id again. *)
Theorem comment_survives
        (env : Env) (call : Call) (s : State) (k : string) (c : Comment) :
  comments_keyed (commentStorage s) →
  commentStorage s !! k = Some c →
  call ≠ DeleteComment k →
  call ≠ DeletePost (comment_postId c) →
  (∀ payload, call = CommentOnPost payload → uuidv4 env ≠ k) →
  commentStorage (exec env call s).2 !! k = Some c.
Proof.
  intros Hc Hk Hdc Hdp Hcp. revert Hdc Hdp Hcp.
  exec_cases call; try done; intros Hdc Hdp Hcp.
  - rewrite lookup_insert_ne; [done|]. by eapply Hcp.
  - rewrite lookup_delete_ne; [done|]. congruence.
  - rewrite purge_values by done. apply map_lookup_filter_Some.
    split; [done|]. cbn [snd]. congruence.
Qed.

Lemma comment_survives_witness :
  let alice := mkEnv "alice" 1%N "p1" in
  let bob := mkEnv "bob" 2%N "c1" in
  let s := (commentOnPost bob (mkCommentPayload "hi" "p1")
             (createPost alice (mkPostPayload "t" "b" "i") init).2).2 in
  commentStorage (exec alice (UpdatePost "p1" (mkPostPayload "T" "B" "I")) s).2
    !! "c1" = Some (mkComment "c1" "hi" "bob" "p1").
Proof.
  intros alice bob s.
  apply (comment_survives alice (UpdatePost "p1" (mkPostPayload "T" "B" "I")) s).
  - change (map_Forall (λ k c, comment_id c = k) (commentStorage s)).
    apply (bool_decide_unpack _). vm_compute. exact I.
  - reflexivity.
  - discriminate.
  - discriminate.
  - discriminate.
Defined.

(** A post that is stored under the same id before and after a call was
    either left alone or rewritten by the one endpoint addressing it. *)
Lemma surviving_post_cases
      (env : Env) (call : Call) (s : State) (id : string) (post post' : Post) :
  posts_keyed (postStorage s) →
  (∀ payload, call = CreatePost payload → postStorage s !! uuidv4 env = None) →
  postStorage s !! id = Some post →
  postStorage (exec env call s).2 !! id = Some post' →
  post' = post
  ∨ (∃ payload, call = UpdatePost id payload
                ∧ post' = updated_post env payload post)
  ∨ (call = LikePost id ∧ post' = set_likes (js_incr (post_likes post)) post)
  ∨ (∃ payload, call = CommentOnPost payload ∧ cp_postId payload = id
                ∧ post' = set_comments (post_comments post ++ [uuidv4 env]) post).
Proof.
  intros Hp Hfresh Hpost. exec_cases call; intros Hpost'.
  all: try (left; congruence).
  - (* createPost *)
    rewrite lookup_insert in Hpost'. case_decide as Hid; [|left; congruence].
    subst id. rewrite (Hfresh _ eq_refl) in Hpost. done.
  - (* updatePost *)
    rename select (postStorage s !! _ = Some _) into Hq.
    rewrite lookup_insert in Hpost'.
    destruct (decide (post_id _ = id)) as [Hid|Hid]; [|left; congruence].
    rewrite (Hp _ _ Hq) in Hid. subst id. right. left. eexists. split; [done|].
    congruence.
  - (* likePost *)
    rename select (postStorage s !! _ = Some _) into Hq.
    rewrite lookup_insert in Hpost'. cbn [post_id set_likes] in Hpost'.
    case_decide as Hid; [|left; congruence].
    rewrite (Hp _ _ Hq) in Hid. subst id. right. right. left. split; [done|].
    congruence.
  - (* commentOnPost *)
    rename select (postStorage s !! _ = Some _) into Hq.
    rewrite lookup_insert in Hpost'. cbn [post_id set_comments] in Hpost'.
    case_decide as Hid; [|left; congruence].
    rewrite (Hp _ _ Hq) in Hid. right. right. right. eexists.
    split; [done|]. split; [done|]. subst id. congruence.
  - (* deletePost *)
    apply lookup_delete_Some in Hpost' as [_ Hpost']. left. congruence.
Qed.

(** X12. For a post stored under the same id before and after a call (posts
    under their own ids, [createPost] not handed a taken id): id, owner and
    creation time are never changed, and title, body, image and
    [updatedAt] are changed by [updatePost] on that id only. *)
Theorem post_fields_stable
        (env : Env) (call : Call) (s : State) (id : string) (post post' : Post) :
  posts_keyed (postStorage s) →
  (∀ payload, call = CreatePost payload → postStorage s !! uuidv4 env = None) →
  postStorage s !! id = Some post →
  postStorage (exec env call s).2 !! id = Some post' →
  (post_id post' = post_id post
   ∧ post_owner post' = post_owner post
   ∧ post_createdAt post' = post_createdAt post)
  ∧ ((∀ payload, call ≠ UpdatePost id payload) →
     post_title post' = post_title post
     ∧ post_body post' = post_body post
     ∧ post_image post' = post_image post
     ∧ post_updatedAt post' = post_updatedAt post).
Proof.
  intros Hp Hfresh Hpost Hpost'.
  destruct (surviving_post_cases env call s id post post' Hp Hfresh Hpost Hpost')
    as [->|[(payload & -> & ->)|[[-> ->]|(payload & -> & _ & ->)]]];
    (split; [done|]); try done.
  intros Hne. by destruct (Hne payload).
Qed.

Lemma post_fields_stable_witness :
  let alice := mkEnv "alice" 1%N "p1" in
  let bob := mkEnv "bob" 2%N "c1" in
  let s := (createPost alice (mkPostPayload "t" "b" "i") init).2 in
  let post := new_post alice (mkPostPayload "t" "b" "i") in
  let post' := set_comments ["c1"] post in
  (post_id post' = post_id post
   ∧ post_owner post' = post_owner post
   ∧ post_createdAt post' = post_createdAt post)
  ∧ ((∀ payload, CommentOnPost (mkCommentPayload "hi" "p1")
                 ≠ UpdatePost "p1" payload) →
     post_title post' = post_title post
     ∧ post_body post' = post_body post
     ∧ post_image post' = post_image post
     ∧ post_updatedAt post' = post_updatedAt post).
Proof.
  intros alice bob s post post'.
  apply (post_fields_stable bob (CommentOnPost (mkCommentPayload "hi" "p1")) s "p1").
  - change (map_Forall (λ k p, post_id p = k) (postStorage s)).
    apply (bool_decide_unpack _). vm_compute. exact I.
  - discriminate.
  - reflexivity.
  - reflexivity.
Defined.

(** X13. The stored comments sequence of a post is never shortened: for a
    post stored under the same id before and after a call, the sequence
    before is a prefix of the sequence after, and the two are equal unless
    the call is a [commentOnPost] on that post.  [deleteComment] in
    particular leaves every stored sequence as it is. *)
Theorem stored_sequence_only_grows
        (env : Env) (call : Call) (s : State) (id : string) (post post' : Post) :
  posts_keyed (postStorage s) →
  (∀ payload, call = CreatePost payload → postStorage s !! uuidv4 env = None) →
  postStorage s !! id = Some post →
  postStorage (exec env call s).2 !! id = Some post' →
  post_comments post `prefix_of` post_comments post'
  ∧ ((∀ content, call ≠ CommentOnPost (mkCommentPayload content id)) →
     post_comments post' = post_comments post).
Proof.
  intros Hp Hfresh Hpost Hpost'.
  destruct (surviving_post_cases env call s id post post' Hp Hfresh Hpost Hpost')
    as [->|[(payload & -> & ->)|[[-> ->]|(payload & -> & Hid & ->)]]];
    try done.
  split; [by apply prefix_app_r|].
  intros Hne. destruct payload as [content postId]. cbn [cp_postId] in Hid.
  subst postId. by destruct (Hne content).
Qed.

Lemma stored_sequence_only_grows_witness :
  let alice := mkEnv "alice" 1%N "p1" in
  let bob := mkEnv "bob" 2%N "c1" in
  let s := (commentOnPost bob (mkCommentPayload "hi" "p1")
             (createPost alice (mkPostPayload "t" "b" "i") init).2).2 in
  let post := set_comments ["c1"] (new_post alice (mkPostPayload "t" "b" "i")) in
  post_comments post `prefix_of` post_comments post
  ∧ ((∀ content, DeleteComment "c1" ≠ CommentOnPost (mkCommentPayload content "p1")) →
     post_comments post = post_comments post).
Proof.
  intros alice bob s post.
  apply (stored_sequence_only_grows bob (DeleteComment "c1") s "p1" post post).
  - change (map_Forall (λ k p, post_id p = k) (postStorage s)).
    apply (bool_decide_unpack _). vm_compute. exact I.
  - discriminate.
  - reflexivity.
  - reflexivity.
Defined.

(** X14. In every reachable state the [likes] of a stored post is an
    integer from 0 to 2^53: the counter is never negative and never leaves
    the range in which the increment is defined here. *)
Theorem reachable_likes_bounded (s : State) (id : string) (post : Post) :
  reachable s →
  (getPost id s).1 = Ok post →
  (0 ≤ post_likes post ≤ 2 ^ 53)%Z.
Proof.
  intros Hreach. rewrite getPost_run. cbn [fst].
  destruct (postStorage s !! id) as [p|] eqn:Hid; [|done].
  intros [= <-]. by eapply (reachable_likes_in_range s Hreach).
Qed.

Lemma reachable_likes_bounded_witness :
  let alice := mkEnv "alice" 1%N "p1" in
  let s := (exec alice (LikePost "p1")
             (exec alice (CreatePost (mkPostPayload "t" "b" "i")) init).2).2 in
  (0 ≤ post_likes (set_likes 1 (new_post alice (mkPostPayload "t" "b" "i")))
     ≤ 2 ^ 53)%Z.
Proof.
  intros alice s.
  apply (reachable_likes_bounded s "p1").
  - apply reachable_step, reachable_step, reachable_init.
  - reflexivity.
Defined.

(** ** Cardinalities and round trips *)

(** X15. How a call changes the number of stored records, in a well-formed
    state with collision-free ids.  A failed call changes neither store.
    A successful [createPost] adds one post and a successful [deletePost]
    removes one; no other call changes the number of posts.  A successful
    [commentOnPost] adds one comment, a successful [deleteComment] removes
    one, a successful [deletePost id] leaves the comments whose [postId] is
    not [id]; no other call changes the number of comments. *)
Theorem store_sizes (env : Env) (call : Call) (s : State) :
  wf s → fresh_id env call s →
  let r := exec env call s in
  size (postStorage r.2)
  = (if failed r.1 then size (postStorage s)
     else match call with
          | CreatePost _ => S (size (postStorage s))
          | DeletePost _ => size (postStorage s) - 1
          | _ => size (postStorage s)
          end)
  ∧ size (commentStorage r.2)
    = (if failed r.1 then size (commentStorage s)
       else match call with
            | CommentOnPost _ => S (size (commentStorage s))
            | DeleteComment _ => size (commentStorage s) - 1
            | DeletePost id =>
                size (filter (λ kc, comment_postId kc.2 ≠ id) (commentStorage s))
            | _ => size (commentStorage s)
            end).
Proof.
  intros [Hp Hc] Hfresh r. subst r. revert Hfresh.
  exec_cases call; cbn [fresh_id failed is_Err]; intros Hfresh; try done.
  - (* createPost *)
    split; [|done]. by apply map_size_insert_None.
  - (* updatePost *)
    rename select (postStorage s !! _ = Some _) into Hpost.
    split; [|done]. apply map_size_insert_Some.
    rewrite (Hp _ _ Hpost). by eexists.
  - (* likePost *)
    rename select (postStorage s !! _ = Some _) into Hpost.
    split; [|done]. apply map_size_insert_Some.
    cbn [post_id set_likes]. rewrite (Hp _ _ Hpost). by eexists.
  - (* commentOnPost *)
    rename select (postStorage s !! _ = Some _) into Hpost.
    destruct Hfresh as [Hnew _]. split.
    + apply map_size_insert_Some.
      cbn [post_id set_comments]. rewrite (Hp _ _ Hpost). by eexists.
    + by apply map_size_insert_None.
  - (* deleteComment *)
    split; [done|]. rewrite map_size_delete_Some by (by eexists). lia.
  - (* deletePost *)
    split; [|by rewrite purge_values].
    rewrite map_size_delete_Some by (by eexists). lia.
Qed.

Lemma store_sizes_witness :
  let alice := mkEnv "alice" 1%N "p1" in
  let bob := mkEnv "bob" 2%N "c1" in
  let s := (createPost alice (mkPostPayload "t" "b" "i") init).2 in
  let r := exec bob (CommentOnPost (mkCommentPayload "hi" "p1")) s in
  size (postStorage r.2) = size (postStorage s)
  ∧ size (commentStorage r.2) = S (size (commentStorage s)).
Proof.
  intros alice bob s r.
  apply (store_sizes bob (CommentOnPost (mkCommentPayload "hi" "p1")) s).
  - apply (wf_exec alice (CreatePost (mkPostPayload "t" "b" "i")) init), wf_init.
  - split; [reflexivity|].
    apply (bool_decide_unpack _). vm_compute. exact I.
Defined.

(** [commentOnPost] then [deleteComment], the size checks left out. *)
Lemma comment_then_delete_unbounded
        (env : Env) (payload : CommentPayload) (s : State) (P : Post) :
  postStorage s !! post_id P = Some P →
  cp_postId payload = post_id P →
  commentStorage s !! uuidv4 env = None →
  let r1 := commentOnPost env payload s in
  let r2 := deleteComment env (uuidv4 env) r1.2 in
  is_Err r1.1 = false ∧ is_Err r2.1 = false
  ∧ commentStorage r2.2 = commentStorage s
  ∧ postStorage r2.2
    = <[post_id P := set_comments (post_comments P ++ [uuidv4 env]) P]>
        (postStorage s)
  ∧ (getCommentsOnPost (post_id P) r2.2).1 = (getCommentsOnPost (post_id P) s).1.
Proof.
  intros HP Hid Hnew r1 r2. subst r2 r1.
  rewrite commentOnPost_run, Hid, HP. cbn [fst snd is_Err].
  rewrite deleteComment_run. cbn [commentStorage postStorage].
  rewrite lookup_insert_eq. cbn [comment_sender new_comment].
  rewrite decide_False by (by intros []). cbn [fst snd is_Err postStorage commentStorage].
  rewrite delete_insert_id by done.
  split; [done|]. split; [done|]. split; [done|]. split; [done|].
  rewrite !getCommentsOnPost_run. cbn [fst postStorage commentStorage].
  rewrite lookup_insert_eq, HP. cbn [post_comments set_comments].
  rewrite omap_app. cbn [omap list_omap]. by rewrite Hnew, app_nil_r.
Qed.

(** [createPost] then [deletePost], the size check left out. *)
Lemma create_then_delete_unbounded (env : Env) (payload : PostPayload) (s : State) :
  postStorage s !! uuidv4 env = None →
  comments_keyed (commentStorage s) →
  no_orphans s →
  let r1 := createPost env payload s in
  let r2 := deletePost env (uuidv4 env) r1.2 in
  r2.1 = r1.1 ∧ r2.2 = s.
Proof.
  intros Hnew Hc Hno r1 r2. subst r2 r1.
  rewrite createPost_run. cbn [fst snd].
  rewrite deletePost_run. cbn [postStorage commentStorage].
  rewrite lookup_insert_eq. cbn [post_owner new_post].
  rewrite decide_False by (by intros []). cbn [fst snd].
  split; [done|]. destruct s as [posts comments].
  cbn [postStorage commentStorage] in *. f_equal.
  - by apply delete_insert_id.
  - rewrite purge_values by done. apply map_filter_id.
    intros k c Hk. cbn [snd]. intros Hpost.
    destruct (Hno k c Hk) as [p Hp]. cbn [postStorage] in Hp. congruence.
Qed.

(** ** Authorization, seen from the stored records *)

(** X18. A caller who is not the owner of a stored post cannot delete it or
    rewrite its content: after any call of such a caller (posts under their
    own ids, [createPost] not handed a taken id) the post is still stored
    under its id with the same title, body, image, [updatedAt] and owner. *)
Theorem non_owner_cannot_rewrite
        (env : Env) (call : Call) (s : State) (id : string) (post : Post) :
  posts_keyed (postStorage s) →
  (∀ payload, call = CreatePost payload → postStorage s !! uuidv4 env = None) →
  postStorage s !! id = Some post →
  post_owner post ≠ caller env →
  ∃ post', postStorage (exec env call s).2 !! id = Some post'
           ∧ post_title post' = post_title post
           ∧ post_body post' = post_body post
           ∧ post_image post' = post_image post
           ∧ post_updatedAt post' = post_updatedAt post
           ∧ post_owner post' = post_owner post.
Proof.
  intros Hp Hfresh Hpost Howner.
  assert (is_Some (postStorage (exec env call s).2 !! id)) as [post' Hpost'].
  { revert Hfresh. exec_cases call; intros Hfresh; try (by eexists).
    all: try (apply lookup_insert_is_Some'; right; by eexists).
    rewrite lookup_delete_ne; [by eexists|]. intros ->.
    rename select (¬ _ ≠ _) into Hn. apply Hn. congruence. }
  exists post'. split; [done|].
  destruct (surviving_post_cases env call s id post post' Hp Hfresh Hpost Hpost')
    as [->|[(payload & -> & ->)|[[-> ->]|(payload & -> & _ & ->)]]]; try done.
  (* updatePost on [id] by a non-owner stores nothing *)
  revert Hpost'. cbn [exec]. rewrite M_fmap_run, updatePost_run, Hpost.
  rewrite decide_True by done. cbn [snd]. rewrite Hpost. by intros [= <-].
Qed.

Lemma non_owner_cannot_rewrite_witness :
  let alice := mkEnv "alice" 1%N "p1" in
  let mallory := mkEnv "mallory" 3%N "x" in
  let s := (createPost alice (mkPostPayload "t" "b" "i") init).2 in
  ∃ post', postStorage (exec mallory (DeletePost "p1") s).2 !! "p1" = Some post'
           ∧ post_title post' = "t"
           ∧ post_body post' = "b"
           ∧ post_image post' = "i"
           ∧ post_updatedAt post' = None
           ∧ post_owner post' = "alice".
Proof.
  intros alice mallory s.
  apply (non_owner_cannot_rewrite mallory (DeletePost "p1") s "p1"
           (new_post alice (mkPostPayload "t" "b" "i"))).
  - change (map_Forall (λ k p, post_id p = k) (postStorage s)).
    apply (bool_decide_unpack _). vm_compute. exact I.
  - discriminate.
  - reflexivity.
  - discriminate.
Defined.

(** X19. A stored comment can be removed only by its sender or by the owner
    of its post: after any call of a caller who is neither (comments under
    their own ids, [commentOnPost] not handed the comment's id again) the
    comment is still stored, unchanged. *)
Theorem stranger_cannot_remove_comment
        (env : Env) (call : Call) (s : State) (k : string) (c : Comment) :
  comments_keyed (commentStorage s) →
  (∀ payload, call = CommentOnPost payload → uuidv4 env ≠ k) →
  commentStorage s !! k = Some c →
  comment_sender c ≠ caller env →
  (∀ post, postStorage s !! comment_postId c = Some post →
           post_owner post ≠ caller env) →
  commentStorage (exec env call s).2 !! k = Some c.
Proof.
  intros Hc Hfresh Hk Hsender Howner. revert Hfresh.
  exec_cases call; try done; intros Hfresh.
  - (* commentOnPost *)
    rewrite lookup_insert_ne; [done|]. by eapply Hfresh.
  - (* deleteComment by the sender of the comment it names *)
    rename select (commentStorage s !! _ = Some _) into Hid.
    rewrite lookup_delete_ne; [done|]. intros ->.
    rename select (¬ _ ≠ _) into Hn. apply Hn. congruence.
  - (* deletePost by the owner of the post it names *)
    rename select (postStorage s !! _ = Some _) into Hpost.
    rewrite purge_values by done. apply map_lookup_filter_Some.
    split; [done|]. cbn [snd]. intros Heq.
    rename select (¬ _ ≠ _) into Hn. apply Hn.
    apply Howner. by rewrite Heq.
Qed.

Lemma stranger_cannot_remove_comment_witness :
  let alice := mkEnv "alice" 1%N "p1" in
  let bob := mkEnv "bob" 2%N "c1" in
  let mallory := mkEnv "mallory" 3%N "x" in
  let s := (commentOnPost bob (mkCommentPayload "hi" "p1")
             (createPost alice (mkPostPayload "t" "b" "i") init).2).2 in
  commentStorage (exec mallory (DeleteComment "c1") s).2 !! "c1"
  = Some (mkComment "c1" "hi" "bob" "p1").
Proof.
  intros alice bob mallory s.
  apply (stranger_cannot_remove_comment mallory (DeleteComment "c1") s).
  - change (map_Forall (λ k c, comment_id c = k) (commentStorage s)).
    apply (bool_decide_unpack _). vm_compute. exact I.
  - discriminate.
  - reflexivity.
  - discriminate.
  - intros post. vm_compute. by intros [= <-].
Defined.

(** X20. The cascade of [deletePost] does not depend on the order in which
    [values] lists the comment store: run over any reordering of a
    snapshot, the loop ends in the same state. *)
Theorem cascade_order_irrelevant
        (id : string) (l l' : list Comment) (s : State) :
  l ≡ₚ l' →
  forEach l (λ comment,
    if decide (comment_postId comment = id)
    then commentStorage.remove (comment_id comment)
    else mret tt) s
  = forEach l' (λ comment,
    if decide (comment_postId comment = id)
    then commentStorage.remove (comment_id comment)
    else mret tt) s.
Proof.
  intros Hperm. rewrite !forEach_purge. by rewrite (purge_Permutation id l l').
Qed.

Lemma cascade_order_irrelevant_witness :
  let c1 := mkComment "c1" "one" "bob" "p1" in
  let c2 := mkComment "c2" "two" "carol" "p2" in
  let s := mkState ∅ {[ "c1" := c1; "c2" := c2 ]} in
  forEach [c1; c2] (λ comment,
    if decide (comment_postId comment = "p1")
    then commentStorage.remove (comment_id comment)
    else mret tt) s
  = forEach [c2; c1] (λ comment,
    if decide (comment_postId comment = "p1")
    then commentStorage.remove (comment_id comment)
    else mret tt) s.
Proof.
  intros c1 c2 s. apply (cascade_order_irrelevant "p1" [c1; c2] [c2; c1] s).
  apply perm_swap.
Defined.

(** * The stores with their size bounds *)

(** The key bound is the size of a UUID key, and the lengths of principals
    come out as they are. *)
Example key_bytes_of_a_uuid :
  key_bytes "110e8400-e29b-41d4-a716-446655440000" = maxKeySize
  ∧ principal_blob_length "2vxsx-fae" = 1%N
  ∧ principal_blob_length "ryjl3-tyaaa-aaaaa-aaaba-cai" = 10%N
  ∧ field_hash "id" = 23515%N
  ∧ record_entry_bytes ["id"; "content"; "sender"; "postId"] = 24%N.
Proof. vm_compute. done. Qed.

Lemma bounded_createPost_run (env : Env) (payload : PostPayload) (s : State) :
  Bounded.createPost env payload s
  = if post_fits (uuidv4 env) (new_post env payload)
    then Some (createPost env payload s) else None.
Proof.
  unfold Bounded.createPost, mbind, Bounded.T_bind, Bounded.postStorage_insert.
  cbn [post_id]. fold (new_post env payload).
  by destruct (post_fits (uuidv4 env) (new_post env payload)).
Qed.

Lemma bounded_updatePost_run
      (env : Env) (id : string) (payload : PostPayload) (s : State) :
  Bounded.updatePost env id payload s
  = match postStorage s !! id with
    | Some post =>
        if decide (post_owner post ≠ caller env)
        then Some (updatePost env id payload s)
        else if post_fits (post_id post) (updated_post env payload post)
             then Some (updatePost env id payload s) else None
    | None => Some (updatePost env id payload s)
    end.
Proof.
  rewrite updatePost_run.
  unfold Bounded.updatePost, mbind, Bounded.T_bind, Bounded.lift,
    Bounded.postStorage_insert, postStorage.get.
  destruct (postStorage s !! id) as [post|]; [|done].
  destruct (decide (post_owner post ≠ caller env)); [done|].
  cbn [post_id]. fold (updated_post env payload post).
  by destruct (post_fits (post_id post) (updated_post env payload post)).
Qed.

Lemma bounded_likePost_run (postId : string) (s : State) :
  Bounded.likePost postId s
  = match postStorage s !! postId with
    | Some post =>
        if post_fits (post_id post) (set_likes (js_incr (post_likes post)) post)
        then Some (likePost postId s) else None
    | None => Some (likePost postId s)
    end.
Proof.
  rewrite likePost_run.
  unfold Bounded.likePost, mbind, Bounded.T_bind, Bounded.lift,
    Bounded.postStorage_insert, postStorage.get.
  destruct (postStorage s !! postId) as [post|]; [|done].
  cbn [post_id set_likes].
  by destruct (post_fits (post_id post) (set_likes (js_incr (post_likes post)) post)).
Qed.

Lemma bounded_commentOnPost_run
      (env : Env) (payload : CommentPayload) (s : State) :
  Bounded.commentOnPost env payload s
  = match postStorage s !! cp_postId payload with
    | Some post =>
        if comment_fits (uuidv4 env) (new_comment env payload)
           && post_fits (post_id post)
                (set_comments (post_comments post ++ [uuidv4 env]) post)
        then Some (commentOnPost env payload s) else None
    | None => Some (commentOnPost env payload s)
    end.
Proof.
  rewrite commentOnPost_run.
  unfold Bounded.commentOnPost, mbind, Bounded.T_bind, Bounded.lift,
    Bounded.postStorage_insert, Bounded.commentStorage_insert, postStorage.get.
  destruct (postStorage s !! cp_postId payload) as [post|]; [|done].
  cbn [comment_id post_id set_comments]. fold (new_comment env payload).
  destruct (comment_fits (uuidv4 env) (new_comment env payload)); [|done].
  cbn [andb commentStorage.insert postStorage].
  by destruct (post_fits (post_id post)
                 (set_comments (post_comments post ++ [uuidv4 env]) post)).
Qed.

Lemma T_fmap_run {A B : Type} (f : A → B) (t : Bounded.T A) (s : State) :
  (f <$> t) s
  = match t s with Some r => Some (f r.1, r.2) | None => None end.
Proof. unfold fmap, Bounded.T_fmap. by destruct (t s) as [[a s']|]. Qed.



(** ** [createPost] and the value bound *)

(** C8 as stated fails: a payload with a body of 2000 bytes gives a record
    over the 1024-byte bound of [postStorage]; [insert] throws, the call
    traps, nothing is stored and [getPost] on the generated id fails with
    NotFound. *)
Lemma createPost_oversize_body_traps :
  let alice := mkEnv "alice" 1%N "p1" in
  let payload := mkPostPayload "t" (repeat_char (Ascii.ascii_of_nat 120) 2000) "i" in
  byte_length (pp_body payload) = 2000%N
  ∧ Bounded.createPost alice payload init = None
  ∧ Bounded.state_after (Bounded.createPost alice payload) init = init
  ∧ fails_with NotFound
      (getPost "p1" (Bounded.state_after (Bounded.createPost alice payload) init)).1.
Proof.
  intros alice payload.
  assert (Bounded.createPost alice payload init = None) as Htrap.
  { rewrite bounded_createPost_run.
    by replace (post_fits (uuidv4 alice) (new_post alice payload))
      with false by (by vm_compute). }
  unfold Bounded.state_after. rewrite Htrap.
  split; [by vm_compute|]. split; [done|]. split; [done|].
  eexists. split; [done|]. apply kind_post_not_found.
Qed.

(** C8, amended. For every payload whose new record fits the bounds of
    [postStorage] (key at most 44 bytes, encoded record at most 1024),
    [createPost] succeeds and returns a record whose id is the freshly
    generated one, with [likes = 0], [comments = []], [updatedAt] absent,
    [owner] the caller, [createdAt] the current time, and the payload's
    title, body and image; [getPost] on the new id then returns that same
    record.  For a payload whose record does not fit, the call traps. *)
Theorem createPost_then_getPost_within_bounds
        (env : Env) (payload : PostPayload) (s : State) :
  let post :=
    {| post_id := uuidv4 env;
       post_title := pp_title payload;
       post_body := pp_body payload;
       post_image := pp_image payload;
       post_owner := caller env;
       post_likes := 0;
       post_createdAt := time env;
       post_updatedAt := None;
       post_comments := [] |} in
  (post_fits (post_id post) post = true →
   ∃ s', Bounded.createPost env payload s = Some (Ok post, s')
         ∧ (getPost (post_id post) s').1 = Ok post)
  ∧ (post_fits (post_id post) post = false →
     Bounded.createPost env payload s = None).
Proof.
  intros post. rewrite bounded_createPost_run.
  change (new_post env payload) with post. cbn [post_id post].
  split; intros ->; [|done].
  rewrite createPost_run. eexists. split; [done|].
  rewrite getPost_run. cbn [fst postStorage]. by rewrite lookup_insert_eq.
Qed.

Lemma createPost_then_getPost_within_bounds_witness :
  let alice := mkEnv "alice" 1%N "110e8400-e29b-41d4-a716-446655440000" in
  let payload := mkPostPayload "A" "B" "" in
  let post := mkPost "110e8400-e29b-41d4-a716-446655440000" "A" "B" "" "alice"
                     0 1%N None [] in
  ∃ s', Bounded.createPost alice payload init = Some (Ok post, s')
        ∧ (getPost (post_id post) s').1 = Ok post.
Proof.
  intros alice payload post.
  apply (createPost_then_getPost_within_bounds alice payload init).
  vm_compute. reflexivity.
Defined.

(** ** Writes that pass the size check *)

(** X3. [updatePost] by the owner of a stored post, when the updated record
    fits the bounds of [postStorage], returns and stores the record with
    the payload's title, body and image and with [updatedAt] set to the
    current time; id, owner, likes, createdAt and the comments sequence are
    those of the stored record.  The comment store is not touched, and
    [getPost] then returns the updated record.  When the updated record
    does not fit, the call traps. *)
Theorem updatePost_by_owner_within_bounds
        (env : Env) (payload : PostPayload) (s : State) (post : Post) :
  postStorage s !! post_id post = Some post →
  post_owner post = caller env →
  let post' :=
    {| post_id := post_id post;
       post_title := pp_title payload;
       post_body := pp_body payload;
       post_image := pp_image payload;
       post_owner := post_owner post;
       post_likes := post_likes post;
       post_createdAt := post_createdAt post;
       post_updatedAt := Some (time env);
       post_comments := post_comments post |} in
  (post_fits (post_id post) post' = true →
   ∃ s', Bounded.updatePost env (post_id post) payload s = Some (Ok post', s')
         ∧ postStorage s' = <[post_id post := post']> (postStorage s)
         ∧ commentStorage s' = commentStorage s
         ∧ (getPost (post_id post) s').1 = Ok post')
  ∧ (post_fits (post_id post) post' = false →
     Bounded.updatePost env (post_id post) payload s = None).
Proof.
  intros Hpost Howner post'.
  rewrite bounded_updatePost_run, Hpost, decide_False by (by intros []).
  change (updated_post env payload post) with post'.
  split; intros ->; [|done].
  rewrite updatePost_run, Hpost, decide_False by (by intros []).
  change (updated_post env payload post) with post'.
  eexists. split; [done|]. cbn [postStorage commentStorage].
  split; [done|]. split; [done|].
  rewrite getPost_run. cbn [fst postStorage]. by rewrite lookup_insert_eq.
Qed.

Lemma updatePost_by_owner_within_bounds_witness :
  let alice := mkEnv "alice" 1%N "p1" in
  let later := mkEnv "alice" 5%N "unused" in
  let s := (likePost "p1" (createPost alice (mkPostPayload "t" "b" "i") init).2).2 in
  let post' := mkPost "p1" "T" "B" "I" "alice" 1 1%N (Some 5%N) [] in
  ∃ s', Bounded.updatePost later "p1" (mkPostPayload "T" "B" "I") s
        = Some (Ok post', s')
        ∧ postStorage s' = <["p1" := post']> (postStorage s)
        ∧ commentStorage s' = commentStorage s
        ∧ (getPost "p1" s').1 = Ok post'.
Proof.
  intros alice later s post'.
  apply (updatePost_by_owner_within_bounds later (mkPostPayload "T" "B" "I") s
           (mkPost "p1" "t" "b" "i" "alice" 1 1%N None []));
    [reflexivity | reflexivity | vm_compute; reflexivity].
Defined.

(** X6. [createPost] leaves the comment store and every post stored under
    another id as they were.  When the new record does not fit the bounds
    the call traps and both stores are as before.  When it fits: with an id
    that is not taken the post store grows by one; with an id that is taken
    the record under it is replaced by the new one (no likes, no comments)
    and the size stays. *)
Theorem createPost_effect_on_stores
        (env : Env) (payload : PostPayload) (s : State) :
  let s' := Bounded.state_after (Bounded.createPost env payload) s in
  let fits := post_fits (uuidv4 env) (new_post env payload) in
  commentStorage s' = commentStorage s
  ∧ (∀ k, k ≠ uuidv4 env → postStorage s' !! k = postStorage s !! k)
  ∧ (fits = false → s' = s)
  ∧ (fits = true → postStorage s !! uuidv4 env = None →
     size (postStorage s') = S (size (postStorage s)))
  ∧ (fits = true → is_Some (postStorage s !! uuidv4 env) →
     size (postStorage s') = size (postStorage s)
     ∧ post_likes <$> postStorage s' !! uuidv4 env = Some 0%Z
     ∧ post_comments <$> postStorage s' !! uuidv4 env = Some []).
Proof.
  intros s' fits. subst s' fits. unfold Bounded.state_after.
  rewrite bounded_createPost_run.
  destruct (createPost_store_effect_unbounded env payload s)
    as (Hcomments & Hframe & Hnew & Htaken).
  destruct (post_fits (uuidv4 env) (new_post env payload)).
  - destruct (createPost env payload s) as [r s1]. cbn [snd] in *.
    split; [done|]. split; [done|]. split; [done|]. split; by auto.
  - split; [done|]. split; [done|]. split; [done|]. split; done.
Qed.

Lemma createPost_effect_on_stores_witness :
  let alice := mkEnv "alice" 1%N "p1" in
  let again := mkEnv "mallory" 9%N "p1" in
  let payload := mkPostPayload "t" "b" "i" in
  let big := mkPostPayload "t" (repeat_char (Ascii.ascii_of_nat 120) 2000) "i" in
  let s := (likePost "p1" (createPost alice payload init).2).2 in
  size (postStorage (Bounded.state_after (Bounded.createPost alice payload) init)) = 1
  ∧ Bounded.state_after (Bounded.createPost again big) s = s
  ∧ size (postStorage (Bounded.state_after (Bounded.createPost again payload) s))
    = size (postStorage s)
  ∧ post_likes <$>
      postStorage (Bounded.state_after (Bounded.createPost again payload) s) !! "p1"
    = Some 0%Z
  ∧ post_comments <$>
      postStorage (Bounded.state_after (Bounded.createPost again payload) s) !! "p1"
    = Some [].
Proof.
  intros alice again payload big s. split; [|split].
  - apply (createPost_effect_on_stores alice payload init);
      [by vm_compute | reflexivity].
  - apply (createPost_effect_on_stores again big s). by vm_compute.
  - apply (createPost_effect_on_stores again payload s);
      [by vm_compute | by eexists].
Defined.

(** X16. [commentOnPost] on a stored post followed by [deleteComment] of the
    new comment by the same caller, when the id is no comment id and the
    comment and the extended post fit the bounds: both calls succeed, the
    comment store is back to what it was and the post's listing is the one
    from before, while the post stored keeps the new id at the end of its
    sequence. *)
Theorem comment_then_delete_within_bounds
        (env : Env) (payload : CommentPayload) (s : State) (P : Post) :
  postStorage s !! post_id P = Some P →
  cp_postId payload = post_id P →
  commentStorage s !! uuidv4 env = None →
  comment_fits (uuidv4 env) (new_comment env payload) = true →
  post_fits (post_id P) (set_comments (post_comments P ++ [uuidv4 env]) P) = true →
  ∃ comment s1,
    Bounded.commentOnPost env payload s = Some (Ok comment, s1)
    ∧ comment_id comment = uuidv4 env
    ∧ let r2 := deleteComment env (uuidv4 env) s1 in
      r2.1 = Ok comment
      ∧ commentStorage r2.2 = commentStorage s
      ∧ postStorage r2.2
        = <[post_id P := set_comments (post_comments P ++ [uuidv4 env]) P]>
            (postStorage s)
      ∧ (getCommentsOnPost (post_id P) r2.2).1
        = (getCommentsOnPost (post_id P) s).1.
Proof.
  intros HP Hid Hnew Hc Hp.
  rewrite bounded_commentOnPost_run, Hid, HP, Hc, Hp. cbn [andb].
  destruct (comment_then_delete_unbounded env payload s P HP Hid Hnew)
    as (_ & _ & Hcomments & Hposts & Hlist).
  exists (new_comment env payload), (commentOnPost env payload s).2.
  split; [rewrite commentOnPost_run, Hid, HP; reflexivity|].
  split; [reflexivity|].
  split; [|exact (conj Hcomments (conj Hposts Hlist))].
  rewrite commentOnPost_run, Hid, HP. cbn [snd].
  rewrite deleteComment_run. cbn [commentStorage].
  rewrite lookup_insert_eq. cbn [comment_sender new_comment].
  by rewrite decide_False by (by intros []).
Qed.

Lemma comment_then_delete_within_bounds_witness :
  let alice := mkEnv "alice" 1%N "p1" in
  let bob := mkEnv "bob" 2%N "c1" in
  let payload := mkCommentPayload "hi" "p1" in
  let s := (createPost alice (mkPostPayload "t" "b" "i") init).2 in
  let P := new_post alice (mkPostPayload "t" "b" "i") in
  ∃ comment s1,
    Bounded.commentOnPost bob payload s = Some (Ok comment, s1)
    ∧ comment_id comment = "c1"
    ∧ let r2 := deleteComment bob "c1" s1 in
      r2.1 = Ok comment
      ∧ commentStorage r2.2 = commentStorage s
      ∧ postStorage r2.2 = <["p1" := set_comments ["c1"] P]> (postStorage s)
      ∧ (getCommentsOnPost "p1" r2.2).1 = (getCommentsOnPost "p1" s).1.
Proof.
  intros alice bob payload s P.
  apply (comment_then_delete_within_bounds bob payload s P);
    try reflexivity; by vm_compute.
Defined.

(** X17. [createPost] followed by [deletePost] of the new post by the same
    caller restores the state, when the new record fits the bounds, the id
    was not taken, comments sit under their own ids and no comment is
    orphaned: [createPost] succeeds, [deletePost] returns the record it
    built, and both stores are as before. *)
Theorem create_then_delete_within_bounds
        (env : Env) (payload : PostPayload) (s : State) :
  post_fits (uuidv4 env) (new_post env payload) = true →
  postStorage s !! uuidv4 env = None →
  comments_keyed (commentStorage s) →
  no_orphans s →
  ∃ s1, Bounded.createPost env payload s = Some (Ok (new_post env payload), s1)
        ∧ deletePost env (uuidv4 env) s1 = (Ok (new_post env payload), s).
Proof.
  intros Hfits Hnew Hc Hno. rewrite bounded_createPost_run, Hfits.
  destruct (create_then_delete_unbounded env payload s Hnew Hc Hno) as [Hr Hs].
  exists (createPost env payload s).2.
  split; [rewrite createPost_run; reflexivity|].
  rewrite (surjective_pairing (deletePost _ _ _)), Hr, Hs.
  by rewrite createPost_run.
Qed.

Lemma create_then_delete_within_bounds_witness :
  let alice := mkEnv "alice" 1%N "p1" in
  let carol := mkEnv "carol" 3%N "p2" in
  let bob := mkEnv "bob" 2%N "c1" in
  let s := (commentOnPost bob (mkCommentPayload "hi" "p1")
             (createPost alice (mkPostPayload "t" "b" "i") init).2).2 in
  let payload := mkPostPayload "u" "v" "w" in
  ∃ s1, Bounded.createPost carol payload s = Some (Ok (new_post carol payload), s1)
        ∧ deletePost carol "p2" s1 = (Ok (new_post carol payload), s).
Proof.
  intros alice carol bob s payload.
  apply (create_then_delete_within_bounds carol payload s).
  - by vm_compute.
  - reflexivity.
  - change (map_Forall (λ k c, comment_id c = k) (commentStorage s)).
    apply (bool_decide_unpack _). vm_compute. exact I.
  - change (map_Forall (λ _ c, is_Some (postStorage s !! comment_postId c))
                       (commentStorage s)).
    apply (bool_decide_unpack _). vm_compute. exact I.
Defined.
